(** * qa_tools.plot: working-graph defect colouring

    A shallow embedding of [plot_working_graph] (src/qa_tools/plot.py) and
    of the part of networkx the function relies on: the adjacency
    dictionary of an undirected [Graph] and the three view operations the
    source calls on it ([nodes()], [edges()], and the set difference [-]
    that the views inherit from [collections.abc.Set]).

    Node identifiers are the integer labels dwave_networkx gives to
    Chimera and Pegasus lattices; colours and identities are strings. *)

From Stdlib Require Import QArith.
From stdpp Require Import gmap strings list fin_maps.

Local Open Scope Z_scope.

#[local] Set Warnings "-clear-no-such-hyp".

(** ** networkx graphs

    networkx is a dependency of the repository.  The definitions of this
    module follow its [Graph] class (classes/graph.py) and the views
    [NodeView] and [EdgeView] (classes/reportviews.py). *)

Module Nx.

Abbreviation node := Z (only parsing).
Abbreviation edge := (Z * Z)%type (only parsing).

(** [Graph._adj]: a dict from node to the dict of its neighbours.  Python
    dicts iterate in insertion order, so the dict is kept as an
    association list; the neighbour dicts keep only their keys. *)
Record Graph : Type := mkGraph { adj : list (node * list node) }.

(** [G._adj[u]]; [None] stands for [KeyError]. *)
Definition adj_get (G : Graph) (u : node) : option (list node) :=
  (list_to_map (adj G) : gmap node (list node)) !! u.

(** Iteration of [G.nodes()]: the keys in insertion order. *)
Definition nodes (G : Graph) : list node := (adj G).*1.

(** [n in G.nodes()]. *)
Definition nodes_contains (G : Graph) (n : node) : bool :=
  bool_decide (n ∈ nodes G).

(** [EdgeView.__iter__]:
<<
    seen = {}
    for n, nbrs in self._nodes_nbrs():
        for nbr in list(nbrs):
            if nbr not in seen:
                yield (n, nbr)
        seen[n] = 1
>> *)
Fixpoint edges_from (seen : gset node) (l : list (node * list node)) : list edge :=
  match l with
  | [] => []
  | (n, nbrs) :: l' =>
      ((λ nbr, (n, nbr)) <$> filter (λ nbr, nbr ∉ seen) nbrs)
        ++ edges_from ({[n]} ∪ seen) l'
  end.

Definition edges (G : Graph) : list edge := edges_from ∅ (adj G).

(** [u in G._adj[v]], where a [KeyError] is answered by [False]. *)
Definition has_nbr (G : Graph) (v u : node) : bool :=
  match adj_get G v with
  | Some nv => bool_decide (u ∈ nv)
  | None => false
  end.

(** [EdgeView.__contains__]:
<<
    try:
        u, v = e[:2]
        return v in self._adjdict[u] or u in self._adjdict[v]
    except (KeyError, ValueError):
        return False
>> *)
Definition edges_contains (G : Graph) (e : edge) : bool :=
  let '(u, v) := e in
  match adj_get G u with
  | None => false
  | Some nu => if bool_decide (v ∈ nu) then true else has_nbr G v u
  end.

(** [Graph.add_node(n)]. *)
Definition add_node (n : node) (G : Graph) : Graph :=
  if bool_decide (n ∈ nodes G) then G else mkGraph (adj G ++ [(n, [])]).

(** [self._adj[u][v] = ...]: a new key goes to the end of the neighbour
    dict, an existing one keeps its place. *)
Definition add_nbr (u v : node) (l : list (node * list node)) : list (node * list node) :=
  (λ p, if bool_decide (p.1 = u)
        then (p.1, if bool_decide (v ∈ p.2) then p.2 else p.2 ++ [v])
        else p) <$> l.

(** [Graph.add_edge(u, v)]. *)
Definition add_edge (e : edge) (G : Graph) : Graph :=
  let '(u, v) := e in
  let G' := add_node v (add_node u G) in
  mkGraph (add_nbr v u (add_nbr u v (adj G'))).

(** [G = nx.Graph(); G.add_nodes_from(ns); G.add_edges_from(es)]. *)
Definition graph_of (ns : list node) (es : list edge) : Graph :=
  foldl (flip add_edge) (foldl (flip add_node) (mkGraph []) ns) es.

(** The invariant every graph built through the networkx API satisfies:
    keys are unique, and adjacency is symmetric. *)
Definition graph_ok (G : Graph) : Prop :=
  NoDup (nodes G) ∧
  Forall (λ p, Forall (λ v, has_nbr G v p.1 = true) p.2) (adj G).

#[global] Instance graph_ok_dec G : Decision (graph_ok G).
Proof. unfold graph_ok. apply _. Defined.

(** [v in adj[u]] as a relation on an adjacency dict. *)
Definition nbr (l : list (node * list node)) (u v : node) : Prop :=
  ∃ nu, (u, nu) ∈ l ∧ v ∈ nu.

(** Unordered-pair membership in the enumeration [G.edges()]. *)
Definition has_edge (G : Graph) (e : edge) : Prop :=
  e ∈ edges G ∨ (e.2, e.1) ∈ edges G.

End Nx.

Import Nx.

(** ** The objects bound to [T] and [G]

    Lines 55-59 only call methods of the two graph objects.  The pair of
    objects is threaded through the computation; the view methods are
    taken to read their receiver, as networkx documents them. *)

Record Objects : Type := mkObjects { ideal : Graph; actual : Graph }.

Definition St (A : Type) : Type := Objects → A * Objects.

#[global] Instance St_ret : MRet St := λ A a s, (a, s).
#[global] Instance St_bind : MBind St :=
  λ A B k m s, let '(a, s') := m s in k a s'.

(** A method call that only reads its receiver. *)
Definition reads {A} (f : Objects → A) : St A := λ s, (f s, s).

Definition T_nodes : St (list node) := reads (λ s, nodes (ideal s)).
Definition T_edges : St (list edge) := reads (λ s, edges (ideal s)).
Definition in_G_nodes (v : node) : St bool :=
  reads (λ s, nodes_contains (actual s) v).
Definition in_G_edges (e : edge) : St bool :=
  reads (λ s, edges_contains (actual s) e).

(** The generator inside [Set.__sub__]:
    [value for value in self if value not in other]. *)
Fixpoint not_in_other {A} (other : A → St bool) (self : list A) : St (list A) :=
  match self with
  | [] => mret []
  | value :: rest =>
      b ← other value;
      r ← not_in_other other rest;
      mret (if b : bool then r : list A else value :: r)
  end.

(** [self - other] on two views: [Set.__sub__] followed by the views'
    [_from_iterable], which is [set]. *)
Definition view_sub `{Countable A}
    (self : St (list A)) (other : A → St bool) : St (gset A) :=
  l ← self; r ← not_in_other other l; mret (list_to_set r).

(** line 55: [error_node = set(T.nodes() - G.nodes())] *)
Definition error_node : St (gset node) := view_sub T_nodes in_G_nodes.

(** line 56:
    [node_color = [ng_color if v in error_node else ok_color for v in T.nodes()]] *)
Definition node_color (ng_color ok_color : string) (error_node : gset node)
    : St (list string) :=
  vs ← T_nodes;
  mret ((λ v, if bool_decide (v ∈ error_node) then ng_color else ok_color) <$> vs).

(** line 58: [error_edge = set(T.edges() - G.edges())] *)
Definition error_edge : St (gset edge) := view_sub T_edges in_G_edges.

(** line 59:
    [edge_color = [ng_color if e in error_edge else ok_color for e in T.edges()]] *)
Definition edge_color (ng_color ok_color : string) (error_edge : gset edge)
    : St (list string) :=
  es ← T_edges;
  mret ((λ e, if bool_decide (e ∈ error_edge) then ng_color else ok_color) <$> es).

Record Colours : Type := mkColours {
  c_error_node : gset node;
  c_node_color : list string;
  c_error_edge : gset edge;
  c_edge_color : list string;
}.

(** lines 55-59 in sequence *)
Definition colours (ng_color ok_color : string) : St Colours :=
  en ← error_node;
  nc ← node_color ng_color ok_color en;
  ee ← error_edge;
  ec ← edge_color ng_color ok_color ee;
  mret (mkColours en nc ee ec).

(** Result of a computation started with [T] and [G] bound to the given
    graphs. *)
Definition on {A} (T G : Graph) (m : St A) : A := (m (mkObjects T G)).1.

(** ** The collaborators and the entry point *)

Inductive exn : Type :=
  | ValueError (msg : string).

(** [matplotlib.patches.Rectangle(xy, width, height, ec, fill, ls, lw)];
    the decimal literals of the source are kept as exact rationals. *)
Record Rectangle : Type := mkRectangle {
  xy : Q * Q;
  width : Q;
  height : Q;
  ec : string;
  fill : bool;
  ls : string;
  lw : string;
}.

(** The two drawing routines of dwave_networkx. *)
Inductive drawer : Type := draw_chimera | draw_pegasus.

(** Calls made on the collaborators (the sampler, dwave_networkx, pyplot,
    the axes and [os]), in program order. *)
Inductive event : Type :=
  | to_networkx_graph_call
  | graph_func_call (shape : list Z)
  | plt_figure (figsize : Q * Q)
  | plt_axes
  | draw_func_call (d : drawer) (T : Graph)
      (node_color edge_color : list string) (node_size : Z)
  | ax_add_patch (r : Rectangle)
  | plt_show
  | os_makedirs (parent : string)
  | plt_savefig (out_path : string)
  | plt_clf.

(** What the function reads from [sampler]. *)
Record DWaveSampler : Type := mkSampler {
  topology_type : string;         (* properties["topology"]["type"] *)
  topology_shape : list Z;        (* properties["topology"]["shape"] *)
  chip_id : string;               (* properties["chip_id"] *)
  to_networkx_graph : Graph;      (* the working graph *)
}.

(** What the calls on the collaborators do: a call returns, or it
    raises, and the exception propagates (the function has no [try]). *)
Definition outcomes : Type := event → option exn.

(** Every collaborator returns. *)
Definition all_return : outcomes := λ _, None.

(** A run either raises or returns, and in both cases it has made a
    sequence of calls. *)
Definition M (A : Type) : Type :=
  outcomes → list event → list event * (exn + A).

#[global] Instance M_ret : MRet M := λ A a o tr, (tr, inr a).
#[global] Instance M_bind : MBind M :=
  λ A B k m o tr,
    match m o tr with
    | (tr', inl e) => (tr', inl e)
    | (tr', inr a) => k a o tr'
    end.

Definition raise {A} (e : exn) : M A := λ o tr, (tr, inl e).
Definition call (ev : event) : M () :=
  λ o tr, (tr ++ [ev], match o ev with Some e => inl e | None => inr () end).

(** A run under given outcomes of the collaborator calls, and the run in
    which every collaborator returns. *)
Definition run_with {A} (o : outcomes) (m : M A) : list event * (exn + A) :=
  m o [].
Definition run {A} (m : M A) : list event * (exn + A) := run_with all_return m.

(** lines 71-72 *)
Definition rectangle : Rectangle :=
  mkRectangle (37 # 100, - (82 # 100))%Q (64 # 100)%Q (83 # 100)%Q
    "green" false "--" "2".

Section plot.

(** [dnx.chimera_graph] and [dnx.pegasus_graph], applied to the shape. *)
Variable chimera_graph pegasus_graph : list Z → Graph.
(** [Path(out_path).parent] *)
Variable parent : string → string.

(** What lines 42-47 bind. *)
Record capabilities : Type := mkCapabilities {
  graph_func : list Z → Graph;
  draw_func : drawer;
}.

(** lines 41-49 *)
Definition select (topology_type : string) : M capabilities :=
  if bool_decide (topology_type = "chimera") then
    mret (mkCapabilities chimera_graph draw_chimera)
  else if bool_decide (topology_type = "pegasus") then
    mret (mkCapabilities pegasus_graph draw_pegasus)
  else
    raise (ValueError
      ("support chimera or pegasus, unsupported " +:+ topology_type +:+ ".")).

(** lines 66-73 *)
Definition annotate (sampler : DWaveSampler) (draw_rectangle : bool) : M () :=
  if draw_rectangle then
    let chip_id := chip_id sampler in
    if bool_decide (chip_id ≠ "DW_2000Q_6") then
      raise (ValueError ("support DW_2000Q_6, unsupported " +:+ chip_id +:+ "."))
    else
      call (ax_add_patch rectangle)
  else mret ().

(** lines 75-79 *)
Definition output (out_path : option string) : M () :=
  match out_path with
  | None => call plt_show
  | Some p => call (os_makedirs (parent p));; call (plt_savefig p)
  end.

Definition plot_working_graph (sampler : DWaveSampler)
    (out_path : option string) (figsize : Q * Q)
    (ng_color ok_color : string) (draw_rectangle : bool) : M () :=
  caps ← select (topology_type sampler);
  call to_networkx_graph_call;;
  let G := to_networkx_graph sampler in
  call (graph_func_call (topology_shape sampler));;
  let T := graph_func caps (topology_shape sampler) in
  let '(c, objs) := colours ng_color ok_color (mkObjects T G) in
  call (plt_figure figsize);;
  call plt_axes;;
  call (draw_func_call (draw_func caps) (ideal objs)
          (c_node_color c) (c_edge_color c) 1);;
  annotate sampler draw_rectangle;;
  output out_path;;
  call plt_clf.

End plot.

(** What is on the current figure after a sequence of calls: [plt.clf()]
    empties it, the drawing calls add to it. *)
Definition on_figure (tr : list event) : list event :=
  foldl (λ acc ev,
    match ev with
    | plt_clf => []
    | plt_figure _ | plt_axes | draw_func_call _ _ _ _ _ | ax_add_patch _ =>
        acc ++ [ev]
    | _ => acc
    end) [] tr.

(** The calls of lines 52-64 once [graph_func] and [draw_func] are bound. *)
Definition drawing_calls (caps : capabilities) (sampler : DWaveSampler)
    (figsize : Q * Q) (ng_color ok_color : string) : list event :=
  let T := graph_func caps (topology_shape sampler) in
  let c := on T (to_networkx_graph sampler) (colours ng_color ok_color) in
  [to_networkx_graph_call;
   graph_func_call (topology_shape sampler);
   plt_figure figsize;
   plt_axes;
   draw_func_call (draw_func caps) T (c_node_color c) (c_edge_color c) 1].

(** The calls of lines 75-79. *)
Definition output_calls (parent : string → string) (out_path : option string)
    : list event :=
  match out_path with
  | None => [plt_show]
  | Some p => [os_makedirs (parent p); plt_savefig p]
  end.

(** A list of calls made in order, up to and including the first one
    that raises; with the exception, if any. *)
Fixpoint make_calls (o : outcomes) (evs : list event)
    : list event * option exn :=
  match evs with
  | [] => ([], None)
  | ev :: rest =>
      match o ev with
      | Some e => ([ev], Some e)
      | None => let '(tr, r) := make_calls o rest in (ev :: tr, r)
      end
  end.

(** The calls of lines 75-79 that show or persist the figure. *)
Definition is_output (ev : event) : bool :=
  match ev with
  | plt_show | os_makedirs _ | plt_savefig _ => true
  | _ => false
  end.

(** How many entries of a colour list carry a given colour. *)
Definition count_colour (col : string) (cs : list string) : nat :=
  length (filter (λ c, c = col) cs).

(** A small scenario for concrete runs: a path on three nodes as the
    ideal graph, and a working graph that lacks the middle node. *)
Definition example_ideal : Graph := graph_of [1; 2; 3] [(1, 2); (2, 3)].
Definition example_working : Graph := graph_of [1; 3] [].
Definition example_generator (shape : list Z) : Graph := example_ideal.
Definition example_parent (out_path : string) : string := "out".

(** Outcomes in which [plt.savefig] raises (as it does for a file
    extension the backend does not know) and every other call returns. *)
Definition savefig_raises : outcomes :=
  λ ev, match ev with
        | plt_savefig _ => Some (ValueError "Format 'xyz' is not supported")
        | _ => None
        end.

(** ** Facts about the networkx model *)

Section graph_facts.

Implicit Types (G : Graph) (l : list (node * list node)) (u v : node).

Lemma adj_get_Some G u nu :
  NoDup (nodes G) → adj_get G u = Some nu ↔ (u, nu) ∈ adj G.
Proof.
  intros Hnd. unfold adj_get. symmetry. by apply elem_of_list_to_map.
Qed.

Lemma has_nbr_true G v u :
  NoDup (nodes G) →
  has_nbr G v u = true ↔ ∃ nv, (v, nv) ∈ adj G ∧ u ∈ nv.
Proof.
  intros Hnd. unfold has_nbr. split.
  - destruct (adj_get G v) as [nv|] eqn:Hv; [|done].
    intros Hu%bool_decide_eq_true. exists nv. split; [|done].
    by apply adj_get_Some.
  - intros (nv & Hv%adj_get_Some & Hu); [|done].
    rewrite Hv. by apply bool_decide_eq_true.
Qed.

(** What the generator of [EdgeView.__iter__] yields: the pair [(u, v)]
    comes out at an entry [u] that lists [v], provided [v] has not been
    seen, neither before the loop nor as the key of an earlier entry. *)
Lemma elem_of_edges_from seen l u v :
  (u, v) ∈ edges_from seen l ↔
  ∃ l1 nu l2, l = l1 ++ (u, nu) :: l2 ∧ v ∈ nu ∧ (v ∉ seen) ∧ v ∉ (l1.*1).
Proof.
  revert seen. induction l as [|[n nbrs] l IH]; intros seen; simpl.
  - split; [by intros ?%elem_of_nil|].
    intros (l1 & nu & l2 & Hl & _). by destruct l1.
  - rewrite elem_of_app, list_elem_of_fmap, IH. split.
    + intros [(nbr & [= -> ->] & [Hseen Hin]%list_elem_of_filter)
             |(l1 & nu & l2 & -> & Hv & Hseen & Hl1)].
      * exists [], nbrs, l. set_solver.
      * exists ((n, nbrs) :: l1), nu, l2. set_solver.
    + intros (l1 & nu & l2 & Hl & Hv & Hseen & Hl1).
      destruct l1 as [|p l1]; simplify_eq/=.
      * left. exists v. split; [done|]. by apply list_elem_of_filter.
      * right. exists l1, nu, l2. set_solver.
Qed.

Lemma elem_of_edges G u v :
  (u, v) ∈ edges G ↔
  ∃ l1 nu l2, adj G = l1 ++ (u, nu) :: l2 ∧ v ∈ nu ∧ v ∉ (l1.*1).
Proof.
  unfold edges. rewrite elem_of_edges_from.
  split; intros (l1 & nu & l2 & ? & ? & ?); exists l1, nu, l2; set_solver.
Qed.

Lemma edges_has_nbr G u v :
  NoDup (nodes G) → (u, v) ∈ edges G → has_nbr G u v = true.
Proof.
  intros Hnd (l1 & nu & l2 & Hadj & Hv & _)%elem_of_edges.
  apply has_nbr_true; [done|]. exists nu. split; [|done].
  rewrite Hadj. set_solver.
Qed.

Lemma graph_ok_sym G u v :
  graph_ok G → has_nbr G u v = true → has_nbr G v u = true.
Proof.
  intros [Hnd Hsym] (nu & Hu & Hv)%has_nbr_true; [|done].
  rewrite Forall_forall in Hsym. specialize (Hsym _ Hu).
  rewrite Forall_forall in Hsym. by apply Hsym.
Qed.

(** An adjacency that holds in the dict is enumerated, in the orientation
    of whichever endpoint comes first in the node order. *)
Lemma has_nbr_has_edge G u v :
  graph_ok G → has_nbr G u v = true → has_edge G (u, v).
Proof.
  intros Hok Huv. pose proof (graph_ok_sym _ _ _ Hok Huv) as Hvu.
  destruct Hok as [Hnd _].
  apply has_nbr_true in Huv as (nu & Hu & Hv); [|done].
  apply has_nbr_true in Hvu as (nv & Hv' & Hu'); [|done].
  apply list_elem_of_split in Hu as (l1 & l2 & Hadj).
  destruct (decide (v ∈ l1.*1)) as [Hin|Hnin].
  - right. simpl. apply elem_of_edges.
    assert ((v, nv) ∈ l1) as (k1 & k2 & ->)%list_elem_of_split.
    { rewrite Hadj in Hv'. apply elem_of_app in Hv' as [?|Hv']; [done|].
      exfalso. unfold nodes in Hnd. rewrite Hadj, fmap_app in Hnd.
      apply NoDup_app in Hnd as (_ & Hdisj & _).
      apply (Hdisj v Hin). apply elem_of_cons in Hv' as [[= ->]|Hv'].
      - set_solver.
      - apply elem_of_cons. right.
        apply list_elem_of_fmap. by exists (v, nv). }
    exists k1, nv, (k2 ++ (u, nu) :: l2). split; [|split; [done|]].
    + by rewrite Hadj, <- app_assoc.
    + unfold nodes in Hnd. rewrite Hadj, fmap_app in Hnd.
      apply NoDup_app in Hnd as (_ & Hdisj & _).
      intros Hk1. apply (Hdisj u); set_solver.
  - left. apply elem_of_edges. by exists l1, nu, l2.
Qed.

(** On a well-formed graph, [in G.edges()] is unordered-pair membership
    in the enumeration [G.edges()]. *)
Lemma edges_contains_has_edge G e :
  graph_ok G → edges_contains G e = true ↔ has_edge G e.
Proof.
  intros Hok. destruct e as [u v]. split.
  - intros Hc. apply has_nbr_has_edge; [done|].
    unfold edges_contains in Hc. unfold has_nbr.
    destruct (adj_get G u) as [nu|] eqn:Hu; [|done].
    case_bool_decide as Hv; [done|].
    apply (graph_ok_sym _ _ _ Hok) in Hc.
    unfold has_nbr in Hc. rewrite Hu in Hc.
    by apply bool_decide_eq_true in Hc.
  - assert (has_nbr G u v = true → edges_contains G (u, v) = true) as Hn.
    { unfold has_nbr, edges_contains.
      destruct (adj_get G u); [|done]. by intros ->. }
    destruct Hok as [Hnd Hsym].
    intros [H|H]; apply Hn.
    + by apply edges_has_nbr.
    + apply graph_ok_sym; [done|]. by apply edges_has_nbr.
Qed.

(** *** Graphs built through the API are well formed *)

Lemma graph_ok_nbr G :
  graph_ok G ↔
  NoDup (nodes G) ∧ ∀ a b, nbr (adj G) a b → nbr (adj G) b a.
Proof.
  unfold graph_ok. split; intros [Hnd Hsym]; (split; [done|]).
  - intros a b Hab. apply has_nbr_true; [done|].
    apply (graph_ok_sym G a b); [done|]. by apply has_nbr_true.
  - apply Forall_forall. intros [a na] Ha. apply Forall_forall.
    intros b Hb. simpl. apply has_nbr_true; [done|].
    apply Hsym. by exists na.
Qed.

Lemma add_nbr_keys u v l : (add_nbr u v l).*1 = l.*1.
Proof.
  unfold add_nbr. rewrite <- list_fmap_compose. apply list_fmap_ext.
  intros _ [a na] _. simpl. by case_bool_decide.
Qed.

Lemma nbr_add_nbr u v l a b :
  nbr (add_nbr u v l) a b ↔ nbr l a b ∨ (a = u ∧ b = v ∧ u ∈ l.*1).
Proof.
  unfold nbr, add_nbr. split.
  - intros (na & ([a0 na0] & Heq & Hp)%list_elem_of_fmap & Hb).
    simpl in Heq. case_bool_decide as Hu; simplify_eq.
    + case_bool_decide as Hv; [left; by exists na0|].
      apply elem_of_app in Hb as [Hb|Hb%list_elem_of_singleton].
      * left. by exists na0.
      * right. split_and!; [done..|].
        apply list_elem_of_fmap. by exists (u, na0).
    + left. by exists na0.
  - intros [(na & Ha & Hb)|(-> & -> & ([a0 nu] & -> & Hu)%list_elem_of_fmap)].
    + destruct (decide (a = u)) as [->|Hne].
      * exists (if bool_decide (v ∈ na) then na else na ++ [v]). split.
        -- apply list_elem_of_fmap. exists (u, na). split; [|done]. simpl.
           by rewrite (bool_decide_eq_true_2 (u = u)).
        -- case_bool_decide; set_solver.
      * exists na. split; [|done].
        apply list_elem_of_fmap. exists (a, na). split; [|done]. simpl.
        by rewrite (bool_decide_eq_false_2 (a = u)).
    + simpl. exists (if bool_decide (v ∈ nu) then nu else nu ++ [v]). split.
      * apply list_elem_of_fmap. exists (a0, nu). split; [|done]. simpl.
        by rewrite (bool_decide_eq_true_2 (a0 = a0)).
      * case_bool_decide; set_solver.
Qed.

Lemma nodes_add_node n G :
  nodes (add_node n G) = if bool_decide (n ∈ nodes G) then nodes G else nodes G ++ [n].
Proof.
  unfold add_node. case_bool_decide; [done|].
  unfold nodes. simpl. by rewrite fmap_app.
Qed.

Lemma elem_of_nodes_add_node n m G :
  m ∈ nodes (add_node n G) ↔ m = n ∨ m ∈ nodes G.
Proof. rewrite nodes_add_node. case_bool_decide; set_solver. Qed.

Lemma nbr_add_node n G a b : nbr (adj (add_node n G)) a b ↔ nbr (adj G) a b.
Proof.
  unfold add_node. case_bool_decide; [done|]. unfold nbr. simpl. split.
  - intros (na & [Ha|[= -> ->]%list_elem_of_singleton]%elem_of_app & Hb).
    + by exists na.
    + by apply elem_of_nil in Hb.
  - intros (na & Ha & Hb). exists na. split; [|done].
    apply elem_of_app. by left.
Qed.

Lemma add_node_ok n G : graph_ok G → graph_ok (add_node n G).
Proof.
  rewrite !graph_ok_nbr. intros [Hnd Hsym]. split.
  - rewrite nodes_add_node. case_bool_decide; [done|].
    apply NoDup_app. split_and!; [done| |apply NoDup_singleton].
    set_solver.
  - intros a b. rewrite !nbr_add_node. apply Hsym.
Qed.

Lemma nbr_add_edge u v G a b :
  nbr (adj (add_edge (u, v) G)) a b ↔
  nbr (adj G) a b ∨ (a = u ∧ b = v) ∨ (a = v ∧ b = u).
Proof.
  unfold add_edge. simpl. rewrite !nbr_add_nbr, add_nbr_keys, !nbr_add_node.
  assert (u ∈ nodes (add_node v (add_node u G))) as Hu
    by (rewrite !elem_of_nodes_add_node; auto).
  assert (v ∈ nodes (add_node v (add_node u G))) as Hv
    by (rewrite !elem_of_nodes_add_node; auto).
  unfold nodes in Hu, Hv. naive_solver.
Qed.

Lemma add_edge_ok e G : graph_ok G → graph_ok (add_edge e G).
Proof.
  destruct e as [u v]. intros Hok.
  pose proof (add_node_ok v _ (add_node_ok u _ Hok)) as [Hnd _]%graph_ok_nbr.
  apply graph_ok_nbr in Hok as [_ Hsym]. apply graph_ok_nbr. split.
  - unfold add_edge, nodes. simpl. by rewrite !add_nbr_keys.
  - intros a b. rewrite !nbr_add_edge. naive_solver.
Qed.

Lemma graph_of_ok ns es : graph_ok (graph_of ns es).
Proof.
  unfold graph_of.
  assert (∀ G, graph_ok G → graph_ok (foldl (flip add_node) G ns)) as Hns.
  { induction ns as [|n ns IH]; intros G HG; simpl; [done|].
    apply IH. by apply add_node_ok. }
  assert (∀ G, graph_ok G → graph_ok (foldl (flip add_edge) G es)) as Hes.
  { induction es as [|e es IH]; intros G HG; simpl; [done|].
    apply IH. by apply add_edge_ok. }
  apply Hes, Hns. split; [constructor|constructor].
Qed.

Lemma add_edges_nbr_mono es G a b :
  nbr (adj G) a b → nbr (adj (foldl (flip add_edge) G es)) a b.
Proof.
  revert G. induction es as [|[x y] es IH]; intros G Hab; simpl; [done|].
  apply IH, nbr_add_edge. by left.
Qed.

(** An edge handed to [add_edges_from] is adjacent in both directions,
    whichever way round it was written. *)
Lemma graph_of_nbr ns es u v :
  (u, v) ∈ es →
  nbr (adj (graph_of ns es)) u v ∧ nbr (adj (graph_of ns es)) v u.
Proof.
  unfold graph_of. generalize (foldl (flip add_node) (mkGraph []) ns).
  induction es as [|[x y] es IH]; intros G Hin; [by apply elem_of_nil in Hin|].
  apply elem_of_cons in Hin as [[= <- <-]|Hin]; simpl.
  - split; apply add_edges_nbr_mono, nbr_add_edge; auto.
  - by apply IH.
Qed.

End graph_facts.

(** ** Lines 55-59: the defect sets and the colour lists *)

Section defects.

Implicit Types (T G : Graph) (s : Objects) (ng ok : string).

Lemma not_in_other_reads {A} (p : Objects → A → bool) (l : list A) s :
  not_in_other (λ x, reads (λ s, p s x)) l s
  = (filter (λ x, p s x = false) l, s).
Proof.
  induction l as [|x l IH]; [done|].
  simpl. unfold mbind, St_bind, reads at 1. rewrite IH. unfold mret, St_ret.
  rewrite filter_cons. by destruct (p s x); case_decide.
Qed.

Lemma error_node_run s :
  error_node s =
  (list_to_set (filter (λ v, nodes_contains (actual s) v = false) (nodes (ideal s))), s).
Proof.
  unfold error_node, view_sub, T_nodes, in_G_nodes, mbind, St_bind, reads at 1.
  by rewrite (not_in_other_reads (λ s v, nodes_contains (actual s) v)).
Qed.

Lemma error_edge_run s :
  error_edge s =
  (list_to_set (filter (λ e, edges_contains (actual s) e = false) (edges (ideal s))), s).
Proof.
  unfold error_edge, view_sub, T_edges, in_G_edges, mbind, St_bind, reads at 1.
  by rewrite (not_in_other_reads (λ s e, edges_contains (actual s) e)).
Qed.

Lemma colours_run ng ok s :
  colours ng ok s =
  (mkColours
     (error_node s).1
     ((λ v, if bool_decide (v ∈ (error_node s).1) then ng else ok) <$> nodes (ideal s))
     (error_edge s).1
     ((λ e, if bool_decide (e ∈ (error_edge s).1) then ng else ok) <$> edges (ideal s)),
   s).
Proof.
  unfold colours, mbind, St_bind. rewrite error_node_run. simpl.
  rewrite error_edge_run. done.
Qed.

Lemma colours_objects T G ng ok :
  colours ng ok (mkObjects T G) = (on T G (colours ng ok), mkObjects T G).
Proof. unfold on. by rewrite colours_run. Qed.

Lemma elem_of_error_node T G v :
  v ∈ on T G error_node ↔ v ∈ nodes T ∧ v ∉ nodes G.
Proof.
  unfold on. rewrite error_node_run. simpl.
  rewrite elem_of_list_to_set, list_elem_of_filter.
  unfold nodes_contains. rewrite bool_decide_eq_false. tauto.
Qed.

Lemma elem_of_error_edge T G e :
  e ∈ on T G error_edge ↔ e ∈ edges T ∧ edges_contains G e = false.
Proof.
  unfold on. rewrite error_edge_run. simpl.
  rewrite elem_of_list_to_set, list_elem_of_filter. tauto.
Qed.

Lemma colours_on T G ng ok :
  on T G (colours ng ok) =
  mkColours
    (on T G error_node)
    ((λ v, if bool_decide (v ∈ on T G error_node) then ng else ok) <$> nodes T)
    (on T G error_edge)
    ((λ e, if bool_decide (e ∈ on T G error_edge) then ng else ok) <$> edges T).
Proof. unfold on. by rewrite colours_run. Qed.

(** The edge defects against a graph that was handed the edge the other
    way round. *)
Lemma error_edge_graph_of T ns es a b :
  (b, a) ∈ es → (a, b) ∉ on T (graph_of ns es) error_edge.
Proof.
  intros Hin [_ Hc]%elem_of_error_edge.
  pose proof (graph_of_ok ns es) as Hok.
  apply graph_of_nbr with (ns := ns) in Hin as [_ Hab].
  apply has_nbr_true in Hab; [|apply Hok].
  apply (has_nbr_has_edge _ _ _ Hok), edges_contains_has_edge in Hab; [|done].
  congruence.
Qed.

(** C1. Edge orientation invariance: when the ideal graph enumerates an
    edge as (a,b) and the actual graph enumerates the same edge as (b,a),
    the edge is not in [error_edge] under either orientation, and the
    entry of [edge_color] at the edge's position is [ok_color]. *)
Theorem edge_orientation_invariance T G a b ng ok :
  graph_ok G →
  (a, b) ∈ edges T →
  (b, a) ∈ edges G →
  ((a, b) ∉ on T G error_edge) ∧
  ((b, a) ∉ on T G error_edge) ∧
  ∀ i, edges T !! i = Some (a, b) →
       c_edge_color (on T G (colours ng ok)) !! i = Some ok.
Proof.
  intros Hok HT HG.
  assert (edges_contains G (a, b) = true) as Hab.
  { apply edges_contains_has_edge; [done|]. by right. }
  assert (edges_contains G (b, a) = true) as Hba.
  { apply edges_contains_has_edge; [done|]. by left. }
  assert ((a, b) ∉ on T G error_edge) as Hnab.
  { intros [_ ?]%elem_of_error_edge. congruence. }
  split_and!; [done| |].
  - intros [_ ?]%elem_of_error_edge. congruence.
  - intros i Hi. rewrite colours_on. simpl.
    rewrite list_lookup_fmap, Hi. simpl.
    by rewrite bool_decide_eq_false_2.
Qed.

Lemma edge_orientation_invariance_witness :
  let T := graph_of [] [(1, 2)] in
  let G := graph_of [] [(2, 1)] in
  graph_ok G ∧ (1, 2) ∈ edges T ∧ (2, 1) ∈ edges G ∧
  ((1, 2) ∉ on T G error_edge) ∧
  c_edge_color (on T G (colours "red" "blue")) !! 0%nat = Some "blue".
Proof.
  intros T G.
  assert (graph_ok G) as Hok by (apply (bool_decide_unpack _); by vm_compute).
  assert ((1, 2) ∈ edges T) as HT by (vm_compute; constructor).
  assert ((2, 1) ∈ edges G) as HG by (vm_compute; constructor).
  destruct (edge_orientation_invariance T G 1 2 "red" "blue" Hok HT HG)
    as (H1 & _ & H3).
  split_and!; [done..|]. by apply H3.
Defined.

(** C2. No-defect case: when the two graphs have the same nodes and the
    same edges as unordered pairs, both defect sets are empty and every
    entry of both colour lists is [ok_color]. *)
Theorem no_defect_case T G ng ok :
  graph_ok G →
  (∀ v, v ∈ nodes T ↔ v ∈ nodes G) →
  (∀ e, has_edge T e ↔ has_edge G e) →
  let c := on T G (colours ng ok) in
  c_error_node c = ∅ ∧ c_error_edge c = ∅ ∧
  Forall (λ col, col = ok) (c_node_color c) ∧
  Forall (λ col, col = ok) (c_edge_color c).
Proof.
  intros Hok Hn He c.
  assert (on T G error_node = ∅) as Hen.
  { apply set_eq. intros v. rewrite elem_of_error_node, Hn. set_solver. }
  assert (on T G error_edge = ∅) as Hee.
  { apply set_eq. intros e. rewrite elem_of_error_edge. split; [|set_solver].
    intros [HT Hc]. exfalso.
    assert (edges_contains G e = true); [|congruence].
    apply edges_contains_has_edge, He; [done|]. by left. }
  subst c. rewrite colours_on, Hen, Hee. simpl.
  split_and!; [done..| |]; apply Forall_fmap, Forall_forall; by intros.
Qed.

Lemma no_defect_case_witness :
  let T := graph_of [1; 2; 3] [(1, 2); (2, 3)] in
  let G := graph_of [3; 2; 1] [(3, 2); (2, 1)] in
  let c := on T G (colours "red" "blue") in
  c_error_node c = ∅ ∧ c_error_edge c = ∅ ∧
  c_node_color c = ["blue"; "blue"; "blue"] ∧
  c_edge_color c = ["blue"; "blue"] ∧
  edges T = [(1, 2); (2, 3)] ∧ edges G = [(3, 2); (2, 1)].
Proof.
  intros T G c.
  assert (graph_ok G) as Hok by (apply (bool_decide_unpack _); by vm_compute).
  assert (∀ v, v ∈ nodes T ↔ v ∈ nodes G) as Hn.
  { intros v. vm_compute nodes. set_solver. }
  assert (∀ e, has_edge T e ↔ has_edge G e) as He.
  { intros [x y]. unfold has_edge. vm_compute edges. simpl. set_solver. }
  destruct (no_defect_case T G "red" "blue" Hok Hn He) as (H1 & H2 & _ & _).
  split_and!; [done..| | | |]; by vm_compute.
Defined.

(** The single-missing-node scenario for any enumeration order of the
    ideal graph: only the orientation of the reported edges depends on
    the order. *)
Lemma single_missing_node_any_order T G ng ok :
  graph_ok G →
  (∀ v, v ∈ nodes T ↔ v ∈ [1; 2; 3]) →
  (∀ e, has_edge T e ↔ e ∈ [(1, 2); (2, 1); (2, 3); (3, 2)]) →
  (∀ v, v ∈ nodes G ↔ v ∈ [1; 3]) →
  edges G = [] →
  let c := on T G (colours ng ok) in
  c_error_node c = {[2]} ∧
  (∀ e, e ∈ c_error_edge c ∨ (e.2, e.1) ∈ c_error_edge c
        ↔ e ∈ [(1, 2); (2, 1); (2, 3); (3, 2)]) ∧
  c_node_color c = (λ v, if bool_decide (v = 2) then ng else ok) <$> nodes T ∧
  c_edge_color c = (λ _, ng) <$> edges T.
Proof.
  intros Hok HTn HTe HGn HGe c.
  assert (on T G error_node = {[2]}) as Hen.
  { apply set_eq. intros v. rewrite elem_of_error_node, HTn, HGn.
    rewrite !elem_of_cons, !elem_of_nil, elem_of_singleton. lia. }
  assert (∀ e, e ∈ on T G error_edge ↔ e ∈ edges T) as Hee.
  { intros e. rewrite elem_of_error_edge. split; [tauto|].
    intros He. split; [done|]. apply not_true_iff_false.
    rewrite edges_contains_has_edge by done. unfold has_edge.
    rewrite HGe, !elem_of_nil. tauto. }
  subst c. rewrite colours_on, Hen. simpl. split_and!; [done| | |].
  - intros e. rewrite !Hee. apply HTe.
  - apply list_fmap_ext. intros _ v _.
    by rewrite (bool_decide_ext _ _ (elem_of_singleton v 2)).
  - apply list_fmap_ext. intros _ e He%list_elem_of_lookup_2.
    apply Hee in He. by rewrite bool_decide_eq_true_2.
Qed.

(** C3. Single missing node: ideal graph with nodes 1, 2, 3 and edges
    (1,2), (2,3); actual graph with nodes 1, 3 and no edge.  The defect
    node set is {2}, the defect edge set is {(1,2), (2,3)}; node 2 and
    both edges get [ng_color], nodes 1 and 3 get [ok_color]. *)
Theorem single_missing_node ng ok :
  let T := graph_of [1; 2; 3] [(1, 2); (2, 3)] in
  let G := graph_of [1; 3] [] in
  let c := on T G (colours ng ok) in
  nodes T = [1; 2; 3] ∧ edges T = [(1, 2); (2, 3)] ∧
  nodes G = [1; 3] ∧ edges G = [] ∧
  c_error_node c = {[2]} ∧
  c_error_edge c = {[(1, 2); (2, 3)]} ∧
  c_node_color c = [ok; ng; ok] ∧
  c_edge_color c = [ng; ng].
Proof.
  intros T G c.
  assert (on T G error_node = {[2]}) as Hen.
  { apply set_eq. intros v. rewrite elem_of_error_node.
    vm_compute nodes. set_solver. }
  assert (on T G error_edge = {[(1, 2); (2, 3)]}) as Hee.
  { apply set_eq. intros e. rewrite elem_of_error_edge.
    change (edges T) with [(1, 2); (2, 3)].
    rewrite !elem_of_cons, elem_of_nil, elem_of_union, !elem_of_singleton.
    split; [tauto|]. intros [->| ->]; split; auto. }
  subst c. rewrite colours_on, Hen, Hee. simpl.
  split_and!; try done.
Qed.

(** Line 58 looks at the edge only.  On an adjacency dict that lists
    node 2 as a neighbour of node 1 without having node 2 as a key, node 2
    is a defect node and the edge (1,2) is still not a defect edge. *)
Lemma edge_defects_not_synthesized :
  let G := mkGraph [(1, [2])] in
  2 ∈ on example_ideal G error_node ∧
  ((1, 2) ∉ on example_ideal G error_edge) ∧
  (2, 3) ∈ on example_ideal G error_edge.
Proof.
  intros G. rewrite elem_of_error_node, !elem_of_error_edge.
  split; [split|split].
  - vm_compute. repeat constructor.
  - change (nodes G) with [1]. by intros [=]%list_elem_of_singleton.
  - by intros [_ ?].
  - split; [|done]. vm_compute. repeat constructor.
Qed.

(** C4. The defect sets are set differences: [error_node] is the ideal
    node set minus the actual node set; an ideal edge is in [error_edge]
    exactly when the actual graph does not have it (as an unordered
    pair), so nothing but the edge's own absence makes it a defect.  Both
    sets lie inside the ideal graph. *)
Theorem defect_sets_are_differences T G :
  graph_ok G →
  on T G error_node = list_to_set (nodes T) ∖ list_to_set (nodes G) ∧
  (∀ e, e ∈ on T G error_edge ↔ e ∈ edges T ∧ ¬ has_edge G e) ∧
  (∀ v, v ∈ on T G error_node → v ∈ nodes T) ∧
  (∀ e, e ∈ on T G error_edge → e ∈ edges T) ∧
  (∀ e, e ∈ edges T → has_edge G e → e ∉ on T G error_edge).
Proof.
  intros Hok.
  assert (∀ e, e ∈ on T G error_edge ↔ e ∈ edges T ∧ ¬ has_edge G e) as He.
  { intros e. rewrite elem_of_error_edge, <- edges_contains_has_edge by done.
    by rewrite not_true_iff_false. }
  split_and!.
  - apply set_eq. intros v.
    rewrite elem_of_error_node. set_solver.
  - exact He.
  - by intros v [? _]%elem_of_error_node.
  - by intros e [? _]%He.
  - by intros e _ HG [_ ?]%He.
Qed.

Lemma defect_sets_are_differences_witness :
  let T := graph_of [1; 2; 3] [(1, 2); (2, 3)] in
  let G := graph_of [1; 2] [(2, 1)] in
  graph_ok G ∧
  on T G error_node = list_to_set (nodes T) ∖ list_to_set (nodes G) ∧
  ((1, 2) ∉ on T G error_edge) ∧ (2, 3) ∈ on T G error_edge.
Proof.
  intros T G.
  assert (graph_ok G) as Hok by (apply (bool_decide_unpack _); by vm_compute).
  destruct (defect_sets_are_differences T G Hok) as (H1 & H2 & _).
  split_and!; [done..| |].
  - intros [_ Hn]%H2. apply Hn. left. vm_compute. constructor.
  - apply H2. split; [vm_compute; repeat constructor|].
    unfold has_edge. vm_compute edges. simpl. set_solver.
Defined.

(** C7. Order and length preservation: for any defect sets, the colour
    lists are as long as the enumerations [T.nodes()] and [T.edges()],
    and entry [i] is the colour of the [i]-th node (edge) of the
    enumeration. *)
Theorem colour_lists_are_positional T G ng ok (en : gset node) (ee : gset edge) :
  let nc := on T G (node_color ng ok en) in
  let ec := on T G (edge_color ng ok ee) in
  length nc = length (nodes T) ∧
  length ec = length (edges T) ∧
  (∀ i v, nodes T !! i = Some v →
          nc !! i = Some (if bool_decide (v ∈ en) then ng else ok)) ∧
  (∀ i e, edges T !! i = Some e →
          ec !! i = Some (if bool_decide (e ∈ ee) then ng else ok)) ∧
  c_node_color (on T G (colours ng ok)) = on T G (node_color ng ok (on T G error_node)) ∧
  c_edge_color (on T G (colours ng ok)) = on T G (edge_color ng ok (on T G error_edge)).
Proof.
  intros nc ec. subst nc ec. rewrite colours_on. unfold on. simpl.
  rewrite !length_fmap. split_and!; try done.
  - intros i v Hi. by rewrite list_lookup_fmap, Hi.
  - intros i e Hi. by rewrite list_lookup_fmap, Hi.
Qed.

End defects.

(** ** The entry point *)

Section entry_point.

Variable chimera_graph pegasus_graph : list Z → Graph.
Variable parent : string → string.

Local Abbreviation select := (select chimera_graph pegasus_graph).
Local Abbreviation plot_working_graph :=
  (plot_working_graph chimera_graph pegasus_graph parent).

Implicit Types (sampler : DWaveSampler) (out_path : option string)
  (figsize : Q * Q) (ng ok : string) (draw_rectangle : bool).

Lemma select_unsupported t :
  t ≠ "chimera" → t ≠ "pegasus" →
  run (select t) =
  ([], inl (ValueError ("support chimera or pegasus, unsupported " +:+ t +:+ "."))).
Proof.
  intros H1 H2. unfold select, run, run_with.
  by rewrite !bool_decide_eq_false_2.
Qed.

Lemma select_trace t : (run (select t)).1 = [].
Proof. unfold select, run, run_with. by repeat case_bool_decide. Qed.

Lemma select_run_with o t : run_with o (select t) = run (select t).
Proof. unfold select, run, run_with. by repeat case_bool_decide. Qed.

Lemma make_calls_all_return evs : make_calls all_return evs = (evs, None).
Proof. induction evs as [|ev evs IH]; [done|]. simpl. by rewrite IH. Qed.

(** The whole run under any outcomes of the collaborator calls, by cases
    on the selection, the rectangle flag and the identity. *)
Lemma plot_working_graph_run_with o sampler out_path figsize ng ok draw_rectangle :
  run_with o (plot_working_graph sampler out_path figsize ng ok draw_rectangle) =
  match (run (select (topology_type sampler))).2 with
  | inl e => ([], inl e)
  | inr caps =>
      let pre := drawing_calls caps sampler figsize ng ok in
      let post := output_calls parent out_path ++ [plt_clf] in
      if draw_rectangle then
        if bool_decide (chip_id sampler ≠ "DW_2000Q_6") then
          ((make_calls o pre).1,
           inl (default
                  (ValueError ("support DW_2000Q_6, unsupported "
                                 +:+ chip_id sampler +:+ "."))
                  (make_calls o pre).2))
        else
          ((make_calls o (pre ++ [ax_add_patch rectangle] ++ post)).1,
           from_option inl (inr ())
             (make_calls o (pre ++ [ax_add_patch rectangle] ++ post)).2)
      else
        ((make_calls o (pre ++ post)).1,
         from_option inl (inr ()) (make_calls o (pre ++ post)).2)
  end.
Proof.
  unfold plot_working_graph, run_with at 1.
  unfold mbind at 1, M_bind at 1.
  pose proof (select_trace (topology_type sampler)) as Htr.
  pose proof (select_run_with o (topology_type sampler)) as Hsel.
  unfold run_with at 1 in Hsel. rewrite Hsel.
  destruct (run (select (topology_type sampler))) as [tr [e|caps]];
    simpl in Htr; subst tr; [done|].
  rewrite colours_objects. cbv zeta.
  unfold drawing_calls, annotate, output, output_calls.
  unfold mbind, M_bind, call, raise, mret, M_ret.
  cbn [snd fst app make_calls ideal actual].
  generalize (on (graph_func caps (topology_shape sampler))
                (to_networkx_graph sampler) (colours ng ok)).
  intros c.
  destruct draw_rectangle; [case_bool_decide|]; destruct out_path;
    cbn beta iota;
    repeat (match goal with
            | |- context [o ?ev] => destruct (o ev)
            end; cbn; try reflexivity).
Qed.

(** The whole run when every collaborator returns. *)
Lemma plot_working_graph_run sampler out_path figsize ng ok draw_rectangle :
  run (plot_working_graph sampler out_path figsize ng ok draw_rectangle) =
  match (run (select (topology_type sampler))).2 with
  | inl e => ([], inl e)
  | inr caps =>
      let pre := drawing_calls caps sampler figsize ng ok in
      if draw_rectangle then
        if bool_decide (chip_id sampler ≠ "DW_2000Q_6") then
          (pre, inl (ValueError
             ("support DW_2000Q_6, unsupported " +:+ chip_id sampler +:+ ".")))
        else
          (pre ++ [ax_add_patch rectangle] ++ output_calls parent out_path
               ++ [plt_clf], inr ())
      else (pre ++ output_calls parent out_path ++ [plt_clf], inr ())
  end.
Proof.
  unfold run at 1. rewrite plot_working_graph_run_with.
  destruct (run (select (topology_type sampler))).2 as [e|caps]; [done|].
  cbv zeta. by rewrite !make_calls_all_return.
Qed.

Lemma select_chimera :
  run (select "chimera") = ([], inr (mkCapabilities chimera_graph draw_chimera)).
Proof. done. Qed.

Lemma select_pegasus :
  run (select "pegasus") = ([], inr (mkCapabilities pegasus_graph draw_pegasus)).
Proof. done. Qed.

Lemma select_supported t :
  t = "chimera" ∨ t = "pegasus" →
  ∃ caps, run (select t) = ([], inr caps).
Proof. intros [-> | ->]; eauto using select_chimera, select_pegasus. Qed.

(** C5. Topology selection: "chimera" and "pegasus" each bind a
    generator and a drawing routine without raising; for any other
    topology type the selection, and with it the whole call, raises
    [ValueError] and no call has been made on any collaborator. *)
Theorem topology_selection :
  run (select "chimera") = ([], inr (mkCapabilities chimera_graph draw_chimera)) ∧
  run (select "pegasus") = ([], inr (mkCapabilities pegasus_graph draw_pegasus)) ∧
  (∀ t, t ≠ "chimera" → t ≠ "pegasus" →
     run (select t) =
     ([], inl (ValueError
        ("support chimera or pegasus, unsupported " +:+ t +:+ ".")))) ∧
  (∀ sampler out_path figsize ng ok draw_rectangle,
     topology_type sampler ≠ "chimera" → topology_type sampler ≠ "pegasus" →
     run (plot_working_graph sampler out_path figsize ng ok draw_rectangle) =
     ([], inl (ValueError
        ("support chimera or pegasus, unsupported "
           +:+ topology_type sampler +:+ ".")))).
Proof.
  split_and!; [done|done|apply select_unsupported|].
  intros sampler out_path figsize ng ok dr H1 H2.
  by rewrite plot_working_graph_run, select_unsupported.
Qed.

(** C6. Region-annotation gating.  Without the flag the annotation makes
    no call and does not raise; with the flag and an identity other than
    "DW_2000Q_6" it raises [ValueError] with a message naming
    "DW_2000Q_6" and the identity found; with the flag and the expected
    identity it adds the constant [rectangle] to the axes and does not
    raise.  The same holds of the whole call on a supported topology. *)
Theorem region_annotation_gating sampler out_path figsize ng ok :
  run (annotate sampler false) = ([], inr ()) ∧
  (chip_id sampler ≠ "DW_2000Q_6" →
     run (annotate sampler true) =
     ([], inl (ValueError
        ("support DW_2000Q_6, unsupported " +:+ chip_id sampler +:+ ".")))) ∧
  (chip_id sampler = "DW_2000Q_6" →
     run (annotate sampler true) = ([ax_add_patch rectangle], inr ())) ∧
  (∀ caps, run (select (topology_type sampler)) = ([], inr caps) →
     (run (plot_working_graph sampler out_path figsize ng ok false)).2 = inr () ∧
     (chip_id sampler ≠ "DW_2000Q_6" →
        (run (plot_working_graph sampler out_path figsize ng ok true)).2 =
        inl (ValueError
          ("support DW_2000Q_6, unsupported " +:+ chip_id sampler +:+ "."))) ∧
     (chip_id sampler = "DW_2000Q_6" →
        run (plot_working_graph sampler out_path figsize ng ok true) =
        (drawing_calls caps sampler figsize ng ok
           ++ [ax_add_patch rectangle]
           ++ output_calls parent out_path ++ [plt_clf], inr ()))).
Proof.
  split_and!.
  - done.
  - intros Hne. unfold annotate, run, run_with. by rewrite bool_decide_eq_true_2.
  - intros Heq. unfold annotate, run, run_with. rewrite bool_decide_eq_false_2; [done|].
    by intros [].
  - intros caps Hsel. rewrite !plot_working_graph_run, Hsel. simpl.
    split_and!; [done| |].
    + intros Hne. by rewrite bool_decide_eq_true_2.
    + intros Heq. rewrite bool_decide_eq_false_2; [done|]. by intros [].
Qed.

(** C9 (amended). Drawing-surface cleanup.  A call that returns has
    [plt.clf()] as its last call and leaves nothing on the figure; a
    call that raises for an unsupported topology has made no call at
    all.  A call that raises for the device identity has drawn the graph
    on a new figure and has not called [plt.clf()]: what was drawn is
    still on the figure. *)
Theorem figure_cleared_on_return sampler out_path figsize ng ok draw_rectangle :
  let r := run (plot_working_graph sampler out_path figsize ng ok draw_rectangle) in
  (r.2 = inr () →
     (∃ tr, r.1 = tr ++ [plt_clf]) ∧ on_figure r.1 = []) ∧
  (topology_type sampler ≠ "chimera" → topology_type sampler ≠ "pegasus" →
     r.1 = [] ∧ on_figure r.1 = []) ∧
  (∀ caps, run (select (topology_type sampler)) = ([], inr caps) →
     draw_rectangle = true → chip_id sampler ≠ "DW_2000Q_6" →
     r.2 = inl (ValueError
             ("support DW_2000Q_6, unsupported " +:+ chip_id sampler +:+ ".")) ∧
     (plt_clf ∉ r.1) ∧
     on_figure r.1 = drop 2 (drawing_calls caps sampler figsize ng ok)).
Proof.
  intros r. subst r. rewrite plot_working_graph_run. split_and!.
  - destruct (run (select (topology_type sampler))).2 as [e|caps]; [done|].
    cbv zeta.
    destruct draw_rectangle; [case_bool_decide; [done|]|]; intros _;
      (split; [|by destruct out_path]); cbn [fst];
      rewrite !app_assoc; by eexists.
  - intros H1 H2. by rewrite select_unsupported.
  - intros caps -> -> Hne. simpl. rewrite bool_decide_eq_true_2 by done.
    simpl. split_and!; [done| |done].
    unfold drawing_calls. rewrite !elem_of_cons, elem_of_nil. naive_solver.
Qed.

(** C10. Atomicity of the topology failure.  For an unsupported topology
    the call raises before any call on the sampler, dwave_networkx or
    pyplot.  The identity failure comes after the working graph was
    queried, the ideal graph generated, a figure and axes created and
    the graph drawn, and nothing is called after the drawing. *)
Theorem topology_failure_is_atomic sampler out_path figsize ng ok draw_rectangle :
  (topology_type sampler ≠ "chimera" → topology_type sampler ≠ "pegasus" →
     run (plot_working_graph sampler out_path figsize ng ok draw_rectangle) =
     ([], inl (ValueError
        ("support chimera or pegasus, unsupported "
           +:+ topology_type sampler +:+ ".")))) ∧
  (∀ caps, run (select (topology_type sampler)) = ([], inr caps) →
     chip_id sampler ≠ "DW_2000Q_6" →
     let T := graph_func caps (topology_shape sampler) in
     let c := on T (to_networkx_graph sampler) (colours ng ok) in
     run (plot_working_graph sampler out_path figsize ng ok true) =
     ([to_networkx_graph_call;
       graph_func_call (topology_shape sampler);
       plt_figure figsize;
       plt_axes;
       draw_func_call (draw_func caps) T (c_node_color c) (c_edge_color c) 1],
      inl (ValueError
        ("support DW_2000Q_6, unsupported " +:+ chip_id sampler +:+ ".")))).
Proof.
  split.
  - intros H1 H2. by rewrite plot_working_graph_run, select_unsupported.
  - intros caps Hsel Hne T c. rewrite plot_working_graph_run, Hsel. simpl.
    by rewrite bool_decide_eq_true_2.
Qed.

End entry_point.

(** ** Concrete runs *)

Lemma topology_selection_witness :
  let sampler := mkSampler "zephyr" [4; 4] "Advantage2_system1" example_working in
  topology_type sampler ≠ "chimera" ∧ topology_type sampler ≠ "pegasus" ∧
  run (plot_working_graph example_generator example_generator example_parent
         sampler None (8, 8)%Q "red" "blue" false) =
  ([], inl (ValueError "support chimera or pegasus, unsupported zephyr.")).
Proof.
  intros sampler.
  assert (topology_type sampler ≠ "chimera") as H1 by done.
  assert (topology_type sampler ≠ "pegasus") as H2 by done.
  destruct (topology_selection example_generator example_generator example_parent)
    as (_ & _ & _ & H).
  split_and!; [done..|].
  exact (H sampler None (8, 8)%Q "red" "blue" false H1 H2).
Defined.

Lemma region_annotation_gating_witness :
  let good := mkSampler "chimera" [16; 16; 4] "DW_2000Q_6" example_working in
  let other := mkSampler "chimera" [16; 16; 4] "DW_2000Q_5" example_working in
  let caps := mkCapabilities example_generator draw_chimera in
  (chip_id good = "DW_2000Q_6" ∧
   run (annotate good true) = ([ax_add_patch rectangle], inr ()) ∧
   run (plot_working_graph example_generator example_generator example_parent
          good None (8, 8)%Q "red" "blue" true) =
   (drawing_calls caps good (8, 8)%Q "red" "blue"
      ++ [ax_add_patch rectangle; plt_show; plt_clf], inr ())) ∧
  (chip_id other ≠ "DW_2000Q_6" ∧
   run (annotate other true) =
   ([], inl (ValueError "support DW_2000Q_6, unsupported DW_2000Q_5.")) ∧
   (run (plot_working_graph example_generator example_generator example_parent
           other None (8, 8)%Q "red" "blue" true)).2 =
   inl (ValueError "support DW_2000Q_6, unsupported DW_2000Q_5.")).
Proof.
  intros good other caps.
  assert (chip_id good = "DW_2000Q_6") as Hgood by done.
  assert (chip_id other ≠ "DW_2000Q_6") as Hother by done.
  assert (run (select example_generator example_generator (topology_type good))
          = ([], inr caps)) as Hsel by done.
  destruct (region_annotation_gating example_generator example_generator
              example_parent good None (8, 8)%Q "red" "blue")
    as (_ & _ & Hg1 & Hg).
  destruct (Hg caps Hsel) as (_ & _ & Hg3).
  destruct (region_annotation_gating example_generator example_generator
              example_parent other None (8, 8)%Q "red" "blue")
    as (_ & Ho1 & _ & Ho).
  destruct (Ho caps Hsel) as (_ & Ho2 & _).
  split; (split; [done|split]).
  - exact (Hg1 Hgood).
  - exact (Hg3 Hgood).
  - exact (Ho1 Hother).
  - exact (Ho2 Hother).
Defined.

(** C9 as stated fails: a Chimera device other than "DW_2000Q_6" with the
    rectangle requested.  The call raises with the graph drawn and
    [plt.clf()] not called. *)
Lemma figure_left_on_identity_error :
  let sampler := mkSampler "chimera" [16; 16; 4] "DW_2000Q_5" example_working in
  let r := run (plot_working_graph example_generator example_generator
                  example_parent sampler None (8, 8)%Q "red" "blue" true) in
  r.2 = inl (ValueError "support DW_2000Q_6, unsupported DW_2000Q_5.") ∧
  (plt_clf ∉ r.1) ∧
  on_figure r.1 =
    [plt_figure (8, 8)%Q; plt_axes;
     draw_func_call draw_chimera example_ideal
       ["blue"; "red"; "blue"] ["red"; "red"] 1] ∧
  on_figure r.1 ≠ [].
Proof.
  intros sampler r.
  assert (r = ([to_networkx_graph_call; graph_func_call [16; 16; 4];
                plt_figure (8, 8)%Q; plt_axes;
                draw_func_call draw_chimera example_ideal
                  ["blue"; "red"; "blue"] ["red"; "red"] 1],
               inl (ValueError "support DW_2000Q_6, unsupported DW_2000Q_5.")))
    as -> by (by vm_compute).
  split_and!; [done| |done|done].
  simpl. rewrite !elem_of_cons, elem_of_nil. naive_solver.
Qed.

Lemma figure_cleared_on_return_witness :
  let good := mkSampler "pegasus" [16] "DW_2000Q_6" example_working in
  let bad := mkSampler "zephyr" [4; 4] "Advantage2_system1" example_working in
  let other := mkSampler "chimera" [16; 16; 4] "DW_2000Q_5" example_working in
  let plot sampler out_path :=
    run (plot_working_graph example_generator example_generator
           example_parent sampler out_path (8, 8)%Q "red" "blue" true) in
  ((plot good (Some "out/graph.png")).2 = inr () ∧
   (∃ tr, (plot good (Some "out/graph.png")).1 = tr ++ [plt_clf]) ∧
   on_figure (plot good (Some "out/graph.png")).1 = []) ∧
  (topology_type bad ≠ "chimera" ∧ topology_type bad ≠ "pegasus" ∧
   (plot bad None).1 = []) ∧
  (chip_id other ≠ "DW_2000Q_6" ∧
   (plt_clf ∉ (plot other None).1) ∧
   on_figure (plot other None).1 =
     [plt_figure (8, 8)%Q; plt_axes;
      draw_func_call draw_chimera example_ideal
        ["blue"; "red"; "blue"] ["red"; "red"] 1]).
Proof.
  intros good bad other plot.
  assert ((plot good (Some "out/graph.png")).2 = inr ()) as Hret
    by (by vm_compute).
  assert (topology_type bad ≠ "chimera") as H1 by done.
  assert (topology_type bad ≠ "pegasus") as H2 by done.
  assert (chip_id other ≠ "DW_2000Q_6") as Hother by done.
  assert (run (select example_generator example_generator (topology_type other))
          = ([], inr (mkCapabilities example_generator draw_chimera)))
    as Hsel by done.
  destruct (figure_cleared_on_return example_generator example_generator
              example_parent good (Some "out/graph.png") (8, 8)%Q
              "red" "blue" true) as (Hg & _).
  destruct (figure_cleared_on_return example_generator example_generator
              example_parent bad None (8, 8)%Q "red" "blue" true)
    as (_ & Hb & _).
  destruct (figure_cleared_on_return example_generator example_generator
              example_parent other None (8, 8)%Q "red" "blue" true)
    as (_ & _ & Ho).
  destruct (Hb H1 H2) as [Hb1 _].
  destruct (Ho _ Hsel eq_refl Hother) as (_ & Ho2 & Ho3).
  split_and!; [done|exact (proj1 (Hg Hret))|exact (proj2 (Hg Hret))
              |done|done|exact Hb1|done|exact Ho2|exact Ho3].
Defined.

Lemma topology_failure_is_atomic_witness :
  let bad := mkSampler "zephyr" [4; 4] "Advantage2_system1" example_working in
  let other := mkSampler "chimera" [16; 16; 4] "DW_2000Q_5" example_working in
  (topology_type bad ≠ "chimera" ∧ topology_type bad ≠ "pegasus" ∧
   run (plot_working_graph example_generator example_generator example_parent
          bad None (8, 8)%Q "red" "blue" true) =
   ([], inl (ValueError "support chimera or pegasus, unsupported zephyr."))) ∧
  (chip_id other ≠ "DW_2000Q_6" ∧
   run (plot_working_graph example_generator example_generator example_parent
          other None (8, 8)%Q "red" "blue" true) =
   ([to_networkx_graph_call; graph_func_call [16; 16; 4];
     plt_figure (8, 8)%Q; plt_axes;
     draw_func_call draw_chimera example_ideal
       ["blue"; "red"; "blue"] ["red"; "red"] 1],
    inl (ValueError "support DW_2000Q_6, unsupported DW_2000Q_5."))).
Proof.
  intros bad other.
  assert (topology_type bad ≠ "chimera") as H1 by done.
  assert (topology_type bad ≠ "pegasus") as H2 by done.
  assert (chip_id other ≠ "DW_2000Q_6") as Hother by done.
  assert (run (select example_generator example_generator (topology_type other))
          = ([], inr (mkCapabilities example_generator draw_chimera)))
    as Hsel by done.
  destruct (topology_failure_is_atomic example_generator example_generator
              example_parent bad None (8, 8)%Q "red" "blue" true) as (Hb & _).
  destruct (topology_failure_is_atomic example_generator example_generator
              example_parent other None (8, 8)%Q "red" "blue" true) as (_ & Ho).
  split; split_and!; [done|done| |done|].
  - exact (Hb H1 H2).
  - exact (Ho _ Hsel Hother).
Defined.

(** ** Further facts about the networkx model *)

Section enumeration.

Implicit Types (G : Graph) (l : list (node * list node)) (u v : node).

Lemma has_edge_nbr G u v :
  graph_ok G → has_edge G (u, v) ↔ nbr (adj G) u v.
Proof.
  intros Hok. pose proof Hok as [Hnd _].
  unfold nbr. rewrite <- has_nbr_true by done. split.
  - intros [H|H]; simpl in H.
    + by apply edges_has_nbr.
    + apply graph_ok_sym; [done|]. by apply edges_has_nbr.
  - by apply has_nbr_has_edge.
Qed.

Lemma edges_contains_nbr G u v :
  graph_ok G → edges_contains G (u, v) = true ↔ nbr (adj G) u v.
Proof. intros Hok. by rewrite edges_contains_has_edge, has_edge_nbr. Qed.

Lemma nbr_nodes G u v :
  graph_ok G → nbr (adj G) u v → u ∈ nodes G ∧ v ∈ nodes G.
Proof.
  intros [_ Hsym]%graph_ok_nbr Huv.
  assert (∀ a b, nbr (adj G) a b → a ∈ nodes G) as Hkey.
  { intros a b (na & Ha & _). apply list_elem_of_fmap. by exists (a, na). }
  split; eauto.
Qed.

Lemma edges_from_key seen l u v : (u, v) ∈ edges_from seen l → u ∈ l.*1.
Proof.
  intros (l1 & nu & l2 & -> & _)%elem_of_edges_from.
  rewrite fmap_app, elem_of_app. right. simpl. by left.
Qed.

Lemma NoDup_edges_from seen l :
  NoDup (l.*1) → Forall (λ p, NoDup p.2) l → NoDup (edges_from seen l).
Proof.
  revert seen. induction l as [|[n nbrs] l IH]; intros seen Hk Hn; simpl.
  { constructor. }
  apply NoDup_cons in Hk as [Hn' Hk]. apply Forall_cons in Hn as [Hnb Hn].
  apply NoDup_app. split_and!.
  - apply NoDup_fmap_2; [by intros x y [=]|]. by apply NoDup_filter.
  - intros [a b] (nbr & [= -> ->] & _)%list_elem_of_fmap Hin.
    by apply edges_from_key in Hin.
  - by apply IH.
Qed.

(** Two places of a dict with unique keys that hold the same key. *)
Lemma keys_split_unique l l1 l2 k1 k2 u nu nv :
  NoDup (l.*1) → l = l1 ++ (u, nu) :: l2 → l = k1 ++ (u, nv) :: k2 →
  l1 = k1.
Proof.
  intros Hnd H1 H2.
  assert (l !! length l1 = Some (u, nu)) as Hi
    by (rewrite H1; apply list_lookup_middle; done).
  assert (l !! length k1 = Some (u, nv)) as Hj
    by (rewrite H2; apply list_lookup_middle; done).
  assert (length l1 = length k1) as Hlen.
  { apply (NoDup_lookup (l.*1) _ _ u); [done|..];
      rewrite list_lookup_fmap; [by rewrite Hi|by rewrite Hj]. }
  rewrite H1 in H2. by apply app_inj_1 in H2 as [? _].
Qed.

(** An edge between two distinct nodes is enumerated in one orientation
    only. *)
Lemma edges_one_orientation G u v :
  NoDup (nodes G) → (u, v) ∈ edges G → (v, u) ∈ edges G → u = v.
Proof.
  intros Hnd (l1 & nu & l2 & H1 & _ & Hv)%elem_of_edges
             (k1 & nv & k2 & H2 & _ & Hu)%elem_of_edges.
  destruct (decide (u = v)) as [|Hne]; [done|]. exfalso.
  assert ((v, nv) ∈ l2) as Hv2.
  { assert ((v, nv) ∈ adj G) as Hin by (rewrite H2; set_solver).
    rewrite H1 in Hin.
    apply elem_of_app in Hin as [Hin|Hin].
    - destruct Hv. apply list_elem_of_fmap. by exists (v, nv).
    - apply elem_of_cons in Hin as [[= ? ?]|Hin]; [congruence|done]. }
  apply list_elem_of_split in Hv2 as (m1 & m2 & ->).
  assert (adj G = (l1 ++ (u, nu) :: m1) ++ (v, nv) :: m2) as H3.
  { rewrite H1. by rewrite <- app_assoc. }
  pose proof (keys_split_unique _ _ _ _ _ _ _ _ Hnd H3 H2) as <-.
  apply Hu. rewrite fmap_app, elem_of_app. right. simpl. by left.
Qed.

(** *** Graphs built from a node list and an edge list *)

Lemma graph_of_ind (P : Graph → Prop) :
  P (mkGraph []) →
  (∀ n G, P G → P (add_node n G)) →
  (∀ e G, P G → P (add_edge e G)) →
  ∀ ns es, P (graph_of ns es).
Proof.
  intros H0 Hn He ns es. unfold graph_of.
  assert (∀ G, P G → P (foldl (flip add_node) G ns)) as Hns.
  { induction ns as [|n ns IH]; intros G HG; simpl; [done|]. by apply IH, Hn. }
  assert (∀ G, P G → P (foldl (flip add_edge) G es)) as Hes.
  { induction es as [|e es IH]; intros G HG; simpl; [done|]. by apply IH, He. }
  by apply Hes, Hns.
Qed.

Lemma add_nbr_nodup u v l :
  Forall (λ p, NoDup p.2) l → Forall (λ p, NoDup p.2) (add_nbr u v l).
Proof.
  intros H. unfold add_nbr. apply Forall_fmap.
  eapply Forall_impl; [exact H|]. intros [a na] Hna. simpl in *.
  case_bool_decide; [|done]. simpl. case_bool_decide; [done|].
  apply NoDup_app. split_and!; [done| |apply NoDup_singleton].
  intros x Hx ->%list_elem_of_singleton. done.
Qed.

Lemma graph_of_nodup ns es : Forall (λ p, NoDup p.2) (adj (graph_of ns es)).
Proof.
  apply (graph_of_ind (λ G, Forall (λ p, NoDup p.2) (adj G))).
  - constructor.
  - intros n G HG. unfold add_node. case_bool_decide; [done|]. simpl.
    apply Forall_app. split; [done|]. repeat constructor.
  - intros [u v] G HG. unfold add_edge. simpl.
    do 2 apply add_nbr_nodup.
    unfold add_node. repeat case_bool_decide; simpl;
      rewrite ?Forall_app; split_and?; try done; repeat constructor.
Qed.

Lemma nbr_add_nodes ns G a b :
  nbr (adj (foldl (flip add_node) G ns)) a b ↔ nbr (adj G) a b.
Proof.
  revert G. induction ns as [|n ns IH]; intros G; simpl; [done|].
  by rewrite IH, nbr_add_node.
Qed.

Lemma nbr_add_edges es G a b :
  nbr (adj (foldl (flip add_edge) G es)) a b ↔
  nbr (adj G) a b ∨ (a, b) ∈ es ∨ (b, a) ∈ es.
Proof.
  revert G. induction es as [|[x y] es IH]; intros G; cbn [foldl flip].
  { rewrite !elem_of_nil. tauto. }
  rewrite IH. unfold flip. rewrite nbr_add_edge, !elem_of_cons. naive_solver.
Qed.

Lemma nodes_add_nodes ns G v :
  v ∈ nodes (foldl (flip add_node) G ns) ↔ v ∈ nodes G ∨ v ∈ ns.
Proof.
  revert G. induction ns as [|n ns IH]; intros G; simpl.
  { rewrite elem_of_nil. tauto. }
  rewrite IH, elem_of_nodes_add_node, elem_of_cons. tauto.
Qed.

Lemma nodes_add_edge u v G w :
  w ∈ nodes (add_edge (u, v) G) ↔ w = u ∨ w = v ∨ w ∈ nodes G.
Proof.
  unfold add_edge, nodes at 1. simpl. rewrite !add_nbr_keys.
  fold (nodes (add_node v (add_node u G))).
  rewrite !elem_of_nodes_add_node. tauto.
Qed.

Lemma nodes_add_edges es G v :
  v ∈ nodes (foldl (flip add_edge) G es) ↔
  v ∈ nodes G ∨ ∃ e, e ∈ es ∧ (v = e.1 ∨ v = e.2).
Proof.
  revert G. induction es as [|[x y] es IH]; intros G; cbn [foldl flip].
  { split; [tauto|]. intros [?|(e & []%elem_of_nil & _)]. done. }
  rewrite IH. unfold flip. rewrite nodes_add_edge. split.
  - intros [[->|[->|?]]|(e & He & Hv)]; [right..|by left|right].
    + exists (x, y). split; [by left|by left].
    + exists (x, y). split; [by left|by right].
    + exists e. split; [by right|done].
  - intros [?|(e & [->|He]%elem_of_cons & Hv)]; [tauto| |].
    + simpl in Hv. tauto.
    + right. by exists e.
Qed.

Lemma nbr_graph_of ns es u v :
  nbr (adj (graph_of ns es)) u v ↔ (u, v) ∈ es ∨ (v, u) ∈ es.
Proof.
  unfold graph_of. rewrite nbr_add_edges, nbr_add_nodes. split; [|tauto].
  intros [(nu & []%elem_of_nil & _)|?]. done.
Qed.

(** What was put into a graph is what its views give back: the
    nodes are the listed nodes and the endpoints of the listed edges;
    an edge is enumerated (in some orientation), and is found by
    [in G.edges()], exactly when it was listed in some orientation. *)
Theorem graph_of_round_trip ns es :
  (∀ v, v ∈ nodes (graph_of ns es) ↔
        v ∈ ns ∨ ∃ e, e ∈ es ∧ (v = e.1 ∨ v = e.2)) ∧
  (∀ u v, has_edge (graph_of ns es) (u, v) ↔ (u, v) ∈ es ∨ (v, u) ∈ es) ∧
  (∀ u v, edges_contains (graph_of ns es) (u, v) = true ↔
          (u, v) ∈ es ∨ (v, u) ∈ es).
Proof.
  pose proof (graph_of_ok ns es) as Hok. split_and!.
  - intros v. unfold graph_of. rewrite nodes_add_edges, nodes_add_nodes.
    split; [|tauto]. intros [[[]%elem_of_nil|?]|?]; tauto.
  - intros u v. by rewrite has_edge_nbr, nbr_graph_of.
  - intros u v. by rewrite edges_contains_nbr, nbr_graph_of.
Qed.

(** X1. [G.edges()] repeats nothing.  On an adjacency dict (unique
    keys, each neighbour listed once under a key) the enumeration lists
    each pair once and never lists an edge between two distinct nodes in
    both orientations, so a set of enumerated edges has one element per
    undirected edge. *)
Theorem edges_enumerated_once G :
  NoDup (nodes G) →
  Forall (λ p, NoDup p.2) (adj G) →
  NoDup (edges G) ∧
  (∀ u v, (u, v) ∈ edges G → (v, u) ∈ edges G → u = v).
Proof.
  intros Hnd Hnb. split.
  - by apply NoDup_edges_from.
  - intros u v. by apply edges_one_orientation.
Qed.

Lemma edges_enumerated_once_witness :
  let G := graph_of [3] [(2, 1); (1, 1); (1, 2)] in
  NoDup (nodes G) ∧ Forall (λ p, NoDup p.2) (adj G) ∧
  edges G = [(2, 1); (1, 1)] ∧ NoDup (edges G).
Proof.
  intros G.
  assert (NoDup (nodes G)) as Hnd
    by (apply (bool_decide_unpack _); by vm_compute).
  assert (Forall (λ p, NoDup p.2) (adj G)) as Hnb
    by (apply (bool_decide_unpack _); by vm_compute).
  destruct (edges_enumerated_once G Hnd Hnb) as [Hed _].
  split_and!; [done|done|by vm_compute|done].
Defined.

End enumeration.

(** ** Further facts about lines 55-59 *)

Section defect_facts.

Implicit Types (T G : Graph) (ng ok : string).

Lemma elem_of_error_edge_nbr T G u v :
  graph_ok G →
  (u, v) ∈ on T G error_edge ↔ (u, v) ∈ edges T ∧ ¬ nbr (adj G) u v.
Proof.
  intros Hok. rewrite elem_of_error_edge, <- edges_contains_nbr by done.
  by rewrite not_true_iff_false.
Qed.

Lemma error_node_add_node T G n :
  on T (add_node n G) error_node = on T G error_node ∖ {[n]}.
Proof.
  apply set_eq. intros v.
  rewrite elem_of_difference, !elem_of_error_node, elem_of_nodes_add_node,
    elem_of_singleton.
  tauto.
Qed.

Lemma error_edge_add_node T G n :
  graph_ok G → on T (add_node n G) error_edge = on T G error_edge.
Proof.
  intros Hok. apply set_eq. intros [u v].
  rewrite !elem_of_error_edge_nbr by (done || by apply add_node_ok).
  by rewrite nbr_add_node.
Qed.

Lemma error_node_add_edge T G u v :
  on T (add_edge (u, v) G) error_node = on T G error_node ∖ {[u; v]}.
Proof.
  apply set_eq. intros w.
  rewrite elem_of_difference, !elem_of_error_node, nodes_add_edge,
    elem_of_union, !elem_of_singleton.
  tauto.
Qed.

Lemma error_edge_add_edge T G u v :
  graph_ok G →
  on T (add_edge (u, v) G) error_edge = on T G error_edge ∖ {[(u, v); (v, u)]}.
Proof.
  intros Hok. apply set_eq. intros [a b].
  rewrite elem_of_difference, elem_of_union, !elem_of_singleton.
  rewrite !elem_of_error_edge_nbr by (done || by apply add_edge_ok).
  rewrite nbr_add_edge. naive_solver.
Qed.

(** X2. On a well-formed working graph a missing node takes its edges
    with it: every ideal edge with an endpoint in [error_node] is in
    [error_edge]. *)
Theorem missing_node_takes_its_edges T G e :
  graph_ok G →
  e ∈ edges T →
  e.1 ∈ on T G error_node ∨ e.2 ∈ on T G error_node →
  e ∈ on T G error_edge.
Proof.
  intros Hok He Hend. destruct e as [u v]. simpl in Hend.
  apply elem_of_error_edge_nbr; [done|]. split; [done|].
  intros [Hu Hv]%nbr_nodes; [|done].
  rewrite !elem_of_error_node in Hend. tauto.
Qed.

Lemma missing_node_takes_its_edges_witness :
  graph_ok example_working ∧
  (2, 3) ∈ edges example_ideal ∧
  2 ∈ on example_ideal example_working error_node ∧
  (2, 3) ∈ on example_ideal example_working error_edge.
Proof.
  assert (graph_ok example_working) as Hok
    by (apply (bool_decide_unpack _); by vm_compute).
  assert ((2, 3) ∈ edges example_ideal) as He
    by (vm_compute; repeat constructor).
  assert (2 ∈ on example_ideal example_working error_node) as Hn.
  { apply elem_of_error_node. split; [vm_compute; repeat constructor|].
    change (nodes example_working) with [1; 3].
    rewrite !elem_of_cons, elem_of_nil. lia. }
  split_and!; [done..|].
  exact (missing_node_takes_its_edges example_ideal example_working (2, 3)
           Hok He (or_introl Hn)).
Defined.

(** X3. Repairs only remove defects, and exactly the repaired ones:
    adding a node to the working graph removes that node from
    [error_node] and leaves [error_edge] alone; adding an edge removes
    its two endpoints from [error_node] and the edge, in either
    orientation, from [error_edge]. *)
Theorem repairs_remove_defects T G :
  graph_ok G →
  (∀ n, on T (add_node n G) error_node = on T G error_node ∖ {[n]}) ∧
  (∀ n, on T (add_node n G) error_edge = on T G error_edge) ∧
  (∀ u v, on T (add_edge (u, v) G) error_node
          = on T G error_node ∖ {[u; v]}) ∧
  (∀ u v, on T (add_edge (u, v) G) error_edge
          = on T G error_edge ∖ {[(u, v); (v, u)]}).
Proof.
  intros Hok. split_and!.
  - intros n. apply error_node_add_node.
  - intros n. by apply error_edge_add_node.
  - intros u v. apply error_node_add_edge.
  - intros u v. by apply error_edge_add_edge.
Qed.

Lemma repairs_remove_defects_witness :
  graph_ok example_working ∧
  on example_ideal (add_edge (3, 2) example_working) error_node
  = on example_ideal example_working error_node ∖ {[3; 2]} ∧
  on example_ideal (add_edge (3, 2) example_working) error_edge
  = on example_ideal example_working error_edge ∖ {[(3, 2); (2, 3)]} ∧
  elements (on example_ideal (add_edge (3, 2) example_working) error_node) = [] ∧
  elements (on example_ideal (add_edge (3, 2) example_working) error_edge)
  = [(1, 2)].
Proof.
  assert (graph_ok example_working) as Hok
    by (apply (bool_decide_unpack _); by vm_compute).
  destruct (repairs_remove_defects example_ideal example_working Hok)
    as (_ & _ & Hn & He).
  split_and!; [done|exact (Hn 3 2)|exact (He 3 2)|by vm_compute..].
Defined.

(** Adding to the working graph a node that is not an ideal node, or an
    edge between two such nodes, changes neither defect set and no
    colour. *)
Theorem unexpected_elements_ignored T G ng ok :
  graph_ok G →
  (∀ n, n ∉ nodes T →
        on T (add_node n G) (colours ng ok) = on T G (colours ng ok)) ∧
  (∀ u v, u ∉ nodes T → v ∉ nodes T →
          (u, v) ∉ edges T → (v, u) ∉ edges T →
          on T (add_edge (u, v) G) (colours ng ok) = on T G (colours ng ok)).
Proof.
  intros Hok. split.
  - intros n Hn. rewrite !colours_on, error_edge_add_node by done.
    assert (on T (add_node n G) error_node = on T G error_node) as ->; [|done].
    rewrite error_node_add_node. apply set_eq. intros v.
    rewrite elem_of_difference, elem_of_singleton, elem_of_error_node.
    naive_solver.
  - intros u v Hu Hv Huv Hvu. rewrite !colours_on.
    assert (on T (add_edge (u, v) G) error_node = on T G error_node) as ->.
    { rewrite error_node_add_edge. apply set_eq. intros w.
      rewrite elem_of_difference, elem_of_union, !elem_of_singleton,
        elem_of_error_node.
      naive_solver. }
    assert (on T (add_edge (u, v) G) error_edge = on T G error_edge) as ->; [|done].
    rewrite error_edge_add_edge by done. apply set_eq. intros e.
    rewrite elem_of_difference, elem_of_union, !elem_of_singleton,
      elem_of_error_edge.
    naive_solver.
Qed.

Lemma unexpected_elements_ignored_witness :
  graph_ok example_working ∧
  on example_ideal (add_edge (7, 8) example_working) (colours "red" "blue")
  = on example_ideal example_working (colours "red" "blue") ∧
  on example_ideal (add_node 9 example_working) (colours "red" "blue")
  = on example_ideal example_working (colours "red" "blue").
Proof.
  assert (graph_ok example_working) as Hok
    by (apply (bool_decide_unpack _); by vm_compute).
  assert (∀ n, 3 < n → n ∉ nodes example_ideal) as Hn.
  { intros n Hlt. change (nodes example_ideal) with [1; 2; 3].
    rewrite !elem_of_cons, elem_of_nil. lia. }
  assert (∀ e, 3 < e.1 → e ∉ edges example_ideal) as He.
  { intros [a b] Hlt. simpl in Hlt.
    change (edges example_ideal) with [(1, 2); (2, 3)].
    rewrite !elem_of_cons, elem_of_nil. intros [[= ? ?]|[[= ? ?]|[]]]; lia. }
  destruct (unexpected_elements_ignored example_ideal example_working
              "red" "blue" Hok) as [H1 H2].
  split_and!; [done| |].
  - apply H2; [apply Hn; lia|apply Hn; lia|apply He; simpl; lia
              |apply He; simpl; lia].
  - apply H1, Hn. lia.
Defined.

End defect_facts.

Section colour_facts.

Implicit Types (T G : Graph) (ng ok : string).

(** X6. With two distinct colours, the colour of an entry tells whether
    the working graph has the element: the entry of a node is
    [ok_color] exactly when the node is a node of the working graph,
    and the entry of an edge is [ok_color] exactly when the working
    graph has the edge in some orientation. *)
Theorem colour_reflects_presence T G ng ok :
  ng ≠ ok →
  graph_ok G →
  let c := on T G (colours ng ok) in
  (∀ i v, nodes T !! i = Some v →
          (c_node_color c !! i = Some ok ↔ v ∈ nodes G) ∧
          (c_node_color c !! i = Some ng ↔ v ∉ nodes G)) ∧
  (∀ i e, edges T !! i = Some e →
          (c_edge_color c !! i = Some ok ↔ has_edge G e) ∧
          (c_edge_color c !! i = Some ng ↔ ¬ has_edge G e)).
Proof.
  intros Hne Hok c. subst c. rewrite colours_on. simpl. split.
  - intros i v Hi. rewrite list_lookup_fmap, Hi. simpl.
    pose proof (list_elem_of_lookup_2 _ _ _ Hi) as Hin.
    pose proof (elem_of_error_node T G v) as Hv.
    destruct (decide (v ∈ nodes G)); case_bool_decide; naive_solver.
  - intros i e Hi. rewrite list_lookup_fmap, Hi. simpl.
    pose proof (list_elem_of_lookup_2 _ _ _ Hi) as Hin.
    pose proof (elem_of_error_edge T G e) as He.
    rewrite <- not_true_iff_false, edges_contains_has_edge in He by done.
    destruct (decide (has_edge G e)); case_bool_decide; naive_solver.
Qed.

Lemma colour_reflects_presence_witness :
  let c := on example_ideal example_working (colours "red" "blue") in
  "red" ≠ "blue" ∧ graph_ok example_working ∧
  nodes example_ideal !! 1%nat = Some 2 ∧
  c_node_color c !! 1%nat = Some "red" ∧ 2 ∉ nodes example_working.
Proof.
  intros c.
  assert ("red" ≠ "blue") as Hne by done.
  assert (graph_ok example_working) as Hok
    by (apply (bool_decide_unpack _); by vm_compute).
  assert (nodes example_ideal !! 1%nat = Some 2) as Hi by done.
  assert (c_node_color c !! 1%nat = Some "red") as Hc by (by vm_compute).
  destruct (colour_reflects_presence example_ideal example_working
              "red" "blue" Hne Hok) as [Hn _].
  destruct (Hn 1%nat 2 Hi) as [_ Hng].
  split_and!; [done..|]. by apply Hng.
Defined.

Lemma count_marked `{Countable A} (l : list A) (X : gset A) ng ok :
  ng ≠ ok → NoDup l → (∀ x, x ∈ X → x ∈ l) →
  count_colour ng ((λ x, if bool_decide (x ∈ X) then ng else ok) <$> l) = size X ∧
  count_colour ok ((λ x, if bool_decide (x ∈ X) then ng else ok) <$> l)
  = (length l - size X)%nat.
Proof.
  intros Hne Hnd Hsub. unfold count_colour.
  assert (X = list_to_set (filter (λ x, x ∈ X) l)) as HX.
  { apply set_eq. intros x.
    rewrite elem_of_list_to_set, list_elem_of_filter. naive_solver. }
  assert (size X = length (filter (λ x, x ∈ X) l)) as ->.
  { rewrite HX at 1. apply size_list_to_set. by apply NoDup_filter. }
  clear HX Hnd Hsub. induction l as [|x l [IH1 IH2]]; [done|].
  rewrite fmap_cons, !filter_cons. simpl.
  pose proof (length_filter (λ x, x ∈ X) l) as Hle.
  case_bool_decide as Hx.
  - rewrite (decide_True (P := ng = ng)) by done.
    rewrite (decide_False (P := ng = ok)) by done.
    rewrite (decide_True (P := x ∈ X)) by done.
    simpl. split; [by f_equal|]. lia.
  - rewrite (decide_False (P := ok = ng)) by done.
    rewrite (decide_True (P := ok = ok)) by done.
    rewrite (decide_False (P := x ∈ X)) by done.
    simpl. split; [done|]. lia.
Qed.

(** X7. With two distinct colours and enumerations without repetition,
    the number of [ng_color] entries of each colour list is the size of
    the defect set, and the [ok_color] entries are the rest. *)
Theorem colour_counts T G ng ok :
  ng ≠ ok →
  NoDup (nodes T) →
  NoDup (edges T) →
  let c := on T G (colours ng ok) in
  count_colour ng (c_node_color c) = size (c_error_node c) ∧
  count_colour ok (c_node_color c)
  = (length (nodes T) - size (c_error_node c))%nat ∧
  count_colour ng (c_edge_color c) = size (c_error_edge c) ∧
  count_colour ok (c_edge_color c)
  = (length (edges T) - size (c_error_edge c))%nat.
Proof.
  intros Hne Hn He c. subst c. rewrite colours_on. simpl.
  destruct (count_marked (nodes T) (on T G error_node) ng ok) as [H1 H2];
    [done|done|by intros v [? _]%elem_of_error_node|].
  destruct (count_marked (edges T) (on T G error_edge) ng ok) as [H3 H4];
    [done|done|by intros v [? _]%elem_of_error_edge|].
  done.
Qed.

Lemma colour_counts_witness :
  let c := on example_ideal example_working (colours "red" "blue") in
  "red" ≠ "blue" ∧ NoDup (nodes example_ideal) ∧ NoDup (edges example_ideal) ∧
  count_colour "red" (c_node_color c) = size (c_error_node c) ∧
  count_colour "red" (c_node_color c) = 1%nat ∧
  count_colour "red" (c_edge_color c) = 2%nat.
Proof.
  intros c.
  assert ("red" ≠ "blue") as Hne by done.
  assert (NoDup (nodes example_ideal)) as Hn
    by (apply (bool_decide_unpack _); by vm_compute).
  assert (NoDup (edges example_ideal)) as He
    by (apply (bool_decide_unpack _); by vm_compute).
  destruct (colour_counts example_ideal example_working "red" "blue"
              Hne Hn He) as (H1 & _).
  split_and!; [done..|exact H1|by vm_compute|by vm_compute].
Defined.

(** X8. Empty graphs.  Against an empty working graph every ideal node
    and edge is a defect and every entry of both colour lists is
    [ng_color]; for an empty ideal graph both defect sets and both
    colour lists are empty, whatever the working graph. *)
Theorem empty_graphs ng ok :
  (∀ T, let c := on T (mkGraph []) (colours ng ok) in
        c_error_node c = list_to_set (nodes T) ∧
        c_error_edge c = list_to_set (edges T) ∧
        c_node_color c = replicate (length (nodes T)) ng ∧
        c_edge_color c = replicate (length (edges T)) ng) ∧
  (∀ G, on (mkGraph []) G (colours ng ok) = mkColours ∅ [] ∅ []).
Proof.
  split.
  - intros T c.
    assert (on T (mkGraph []) error_node = list_to_set (nodes T)) as Hen.
    { apply set_eq. intros v.
      rewrite elem_of_error_node, elem_of_list_to_set.
      split; [tauto|]. intros Hv. split; [done|]. by intros ?%elem_of_nil. }
    assert (on T (mkGraph []) error_edge = list_to_set (edges T)) as Hee.
    { apply set_eq. intros [u v].
      rewrite elem_of_error_edge, elem_of_list_to_set. split; [tauto|done]. }
    subst c. rewrite colours_on, Hen, Hee. simpl. split_and!; [done..| |].
    + rewrite <- (const_fmap (λ _, ng)) by done. apply list_fmap_ext.
      intros _ v Hv%list_elem_of_lookup_2. rewrite bool_decide_eq_true_2; [done|].
      by apply elem_of_list_to_set.
    + rewrite <- (const_fmap (λ _, ng)) by done. apply list_fmap_ext.
      intros _ e He%list_elem_of_lookup_2. rewrite bool_decide_eq_true_2; [done|].
      by apply elem_of_list_to_set.
  - intros G. rewrite colours_on. simpl.
    assert (on (mkGraph []) G error_node = ∅) as ->.
    { apply set_eq. intros v. rewrite elem_of_error_node. simpl.
      split; [by intros [?%elem_of_nil _]|by intros ?%elem_of_empty]. }
    assert (on (mkGraph []) G error_edge = ∅) as ->; [|done].
    apply set_eq. intros e. rewrite elem_of_error_edge. simpl.
    split; [by intros [?%elem_of_nil _]|by intros ?%elem_of_empty].
Qed.

End colour_facts.

(** ** Further facts about the entry point *)

Section call_facts.

Variable chimera_graph pegasus_graph : list Z → Graph.
Variable parent : string → string.

Local Abbreviation select := (select chimera_graph pegasus_graph).
Local Abbreviation plot_working_graph :=
  (plot_working_graph chimera_graph pegasus_graph parent).

Implicit Types (sampler : DWaveSampler) (out_path : option string)
  (figsize : Q * Q) (ng ok : string) (draw_rectangle : bool).

Lemma select_cases t :
  (t = "chimera" ∧
   run (select t) = ([], inr (mkCapabilities chimera_graph draw_chimera))) ∨
  (t = "pegasus" ∧
   run (select t) = ([], inr (mkCapabilities pegasus_graph draw_pegasus))) ∨
  (t ≠ "chimera" ∧ t ≠ "pegasus" ∧ ∃ e, run (select t) = ([], inl e)).
Proof.
  destruct (decide (t = "chimera")) as [->|H1]; [by left|].
  destruct (decide (t = "pegasus")) as [->|H2]; [by right; left|].
  right; right. split_and!; [done..|]. eexists. by apply select_unsupported.
Qed.

Lemma output_calls_output out_path :
  Forall (λ ev, is_output ev = true) (output_calls parent out_path).
Proof. destruct out_path; repeat constructor. Qed.

Lemma drawing_calls_not_output caps sampler figsize ng ok :
  Forall (λ ev, is_output ev = false) (drawing_calls caps sampler figsize ng ok).
Proof. repeat constructor. Qed.

Lemma make_calls_prefix o evs : (make_calls o evs).1 `prefix_of` evs.
Proof.
  induction evs as [|ev evs IH]; [done|]. simpl.
  destruct (o ev); simpl.
  - by apply (prefix_cons ev [] evs), prefix_nil.
  - destruct (make_calls o evs) as [tr r]. simpl in *. by apply prefix_cons.
Qed.

Lemma make_calls_None o evs :
  (make_calls o evs).2 = None ↔
  (make_calls o evs).1 = evs ∧ Forall (λ ev, o ev = None) evs.
Proof.
  induction evs as [|ev evs IH]; simpl.
  { split; [by split|done]. }
  destruct (o ev) eqn:Hev; simpl.
  - split; [done|]. intros [_ H]. apply Forall_cons in H as [H _]. congruence.
  - destruct (make_calls o evs) as [tr r]. simpl in *. rewrite IH. split.
    + intros [-> H]. split; [done|by constructor].
    + intros [[= ->] H]. by apply Forall_cons in H as [_ H].
Qed.

(** When a call raised, it is the last call made, and the exception is
    the one it raised. *)
Lemma make_calls_Some o evs e :
  (make_calls o evs).2 = Some e →
  ∃ pre ev, (make_calls o evs).1 = pre ++ [ev] ∧ o ev = Some e.
Proof.
  induction evs as [|ev evs IH]; simpl; [done|].
  destruct (o ev) eqn:Hev; simpl.
  - intros [= ->]. by exists [], ev.
  - destruct (make_calls o evs) as [tr r]. simpl in *.
    intros (pre & ev' & -> & Hev')%IH. by exists (ev :: pre), ev'.
Qed.

Lemma make_calls_returned o evs :
  Forall (λ ev, o ev = None) (make_calls o evs).1 →
  (make_calls o evs).2 = None.
Proof.
  intros Hall. destruct (make_calls o evs).2 as [e|] eqn:Hr; [|done].
  apply make_calls_Some in Hr as (pre & ev & Htr & Hev).
  rewrite Htr in Hall. apply Forall_app in Hall as [_ Hall].
  apply Forall_cons in Hall as [Hall _]. congruence.
Qed.


Lemma filter_no_output tr :
  Forall (λ ev, is_output ev = false) tr →
  filter (λ ev, is_output ev = true) tr = [].
Proof.
  induction 1 as [|ev tr Hev _ IH]; [done|].
  rewrite filter_cons, decide_False; [done|]. by rewrite Hev.
Qed.

Lemma output_shape pre out_path :
  Forall (λ ev, is_output ev = false) pre →
  filter (λ ev, is_output ev = true)
    (pre ++ output_calls parent out_path ++ [plt_clf])
  = output_calls parent out_path.
Proof.
  intros Hpre. rewrite !filter_app, (filter_no_output pre) by done.
  by destruct out_path.
Qed.

Lemma filter_prefix {A} (P : A → Prop) `{∀ x, Decision (P x)} (l1 l2 : list A) :
  l1 `prefix_of` l2 → filter P l1 `prefix_of` filter P l2.
Proof. intros [k ->]. rewrite filter_app. by eexists. Qed.

Lemma no_output_prefix l1 l2 :
  l1 `prefix_of` l2 →
  Forall (λ ev, is_output ev = false) l2 →
  Forall (λ ev, is_output ev = false) l1.
Proof. intros [k ->] [H _]%Forall_app. done. Qed.

(** X10. The output calls of a run.  In every run the output calls made
    are an initial part of the output calls of [out_path] ([plt.show()]
    alone when there is no path; otherwise [os.makedirs] on the parent
    directory followed by [plt.savefig] on the path).  When the function
    raises although every call it made returned, that is from its own
    two [raise] statements, it has made no output call.  When it
    returns, it has made exactly the output calls of [out_path], right
    before [plt.clf()]. *)
Theorem output_only_on_return o sampler out_path figsize ng ok draw_rectangle :
  let r := run_with o
             (plot_working_graph sampler out_path figsize ng ok draw_rectangle) in
  filter (λ ev, is_output ev = true) r.1
    `prefix_of` output_calls parent out_path ∧
  (∀ e, r.2 = inl e → Forall (λ ev, o ev = None) r.1 →
        Forall (λ ev, is_output ev = false) r.1) ∧
  (r.2 = inr () →
     filter (λ ev, is_output ev = true) r.1 =
       match out_path with
       | None => [plt_show]
       | Some p => [os_makedirs (parent p); plt_savefig p]
       end ∧
     ∃ tr, Forall (λ ev, is_output ev = false) tr ∧
           r.1 = tr ++ output_calls parent out_path ++ [plt_clf]).
Proof.
  intros r. subst r. rewrite plot_working_graph_run_with.
  change (match out_path with
          | None => [plt_show]
          | Some p => [os_makedirs (parent p); plt_savefig p]
          end) with (output_calls parent out_path).
  destruct (run (select (topology_type sampler))).2 as [e|caps]; cbn [snd fst].
  { split_and!; [apply prefix_nil|by constructor|done]. }
  cbv zeta.
  assert (∀ pre,
    Forall (λ ev, is_output ev = false) pre →
    let tr := make_calls o (pre ++ output_calls parent out_path ++ [plt_clf]) in
    filter (λ ev, is_output ev = true) tr.1
      `prefix_of` output_calls parent out_path ∧
    (∀ e, from_option inl (inr ()) tr.2 = inl e →
          Forall (λ ev, o ev = None) tr.1 →
          Forall (λ ev, is_output ev = false) tr.1) ∧
    (from_option inl (inr ()) tr.2 = inr () →
     filter (λ ev, is_output ev = true) tr.1 = output_calls parent out_path ∧
     ∃ tr0, Forall (λ ev, is_output ev = false) tr0 ∧
            tr.1 = tr0 ++ output_calls parent out_path ++ [plt_clf])) as Hrun.
  { intros pre Hpre tr. subst tr. split_and!.
    - pose proof (filter_prefix (λ ev, is_output ev = true) _ _
                    (make_calls_prefix o
                       (pre ++ output_calls parent out_path ++ [plt_clf])))
        as Hp.
      by rewrite output_shape in Hp.
    - intros e He Hall. apply make_calls_returned in Hall.
      rewrite Hall in He. done.
    - destruct (make_calls o _).2 eqn:Hr; [done|]. intros _.
      apply make_calls_None in Hr as [-> _]. split.
      + by apply output_shape.
      + by exists pre. }
  destruct draw_rectangle; [case_bool_decide|]; cbn [snd fst].
  - pose proof (no_output_prefix _ _ (make_calls_prefix o _)
                  (drawing_calls_not_output caps sampler figsize ng ok)) as Hno.
    split_and!; [|done|done].
    rewrite (filter_no_output _ Hno). apply prefix_nil.
  - rewrite app_assoc. apply Hrun.
    apply Forall_app. split; [apply drawing_calls_not_output|repeat constructor].
  - apply Hrun, drawing_calls_not_output.
Qed.

(** X11. Without the rectangle the device identity plays no part: two
    samplers that differ in [chip_id] only give the same run. *)
Theorem chip_id_unused_without_rectangle
    t shape chip chip' G out_path figsize ng ok :
  run (plot_working_graph (mkSampler t shape chip G) out_path figsize ng ok false)
  = run (plot_working_graph (mkSampler t shape chip' G) out_path figsize ng ok false).
Proof. by rewrite !plot_working_graph_run. Qed.

(** X12. What the drawing routine is handed.  Any call of a drawing
    routine in a run is the routine of the sampler's topology type,
    applied to the graph the matching generator gives for the sampler's
    shape, with one colour per node and per edge of that graph and node
    size 1. *)
Theorem draw_call_is_aligned sampler out_path figsize ng ok draw_rectangle
    d T nc ec size :
  draw_func_call d T nc ec size
    ∈ (run (plot_working_graph sampler out_path figsize ng ok draw_rectangle)).1 →
  ((topology_type sampler = "chimera" ∧ d = draw_chimera ∧
    T = chimera_graph (topology_shape sampler)) ∨
   (topology_type sampler = "pegasus" ∧ d = draw_pegasus ∧
    T = pegasus_graph (topology_shape sampler))) ∧
  length nc = length (nodes T) ∧
  length ec = length (edges T) ∧
  nc = c_node_color (on T (to_networkx_graph sampler) (colours ng ok)) ∧
  ec = c_edge_color (on T (to_networkx_graph sampler) (colours ng ok)) ∧
  size = 1.
Proof.
  rewrite plot_working_graph_run.
  assert (∀ caps tail,
    Forall (λ ev, ∀ d T nc ec size, ev ≠ draw_func_call d T nc ec size) tail →
    draw_func_call d T nc ec size
      ∈ drawing_calls caps sampler figsize ng ok ++ tail →
    d = draw_func caps ∧ T = graph_func caps (topology_shape sampler) ∧
    nc = c_node_color (on T (to_networkx_graph sampler) (colours ng ok)) ∧
    ec = c_edge_color (on T (to_networkx_graph sampler) (colours ng ok)) ∧
    size = 1) as Hdraw.
  { intros caps tail Htail [Hin|Hin]%elem_of_app.
    - unfold drawing_calls in Hin.
      rewrite !elem_of_cons, elem_of_nil in Hin.
      destruct Hin as [?|[?|[?|[?|[Heq|[]]]]]]; try done.
      by injection Heq as -> -> -> -> ->.
    - rewrite Forall_forall in Htail. by destruct (Htail _ Hin d T nc ec size). }
  assert (∀ tail, Forall (λ ev, ∀ d T nc ec size,
                     ev ≠ draw_func_call d T nc ec size)
            (tail ++ output_calls parent out_path ++ [plt_clf]) ↔
          Forall (λ ev, ∀ d T nc ec size,
                     ev ≠ draw_func_call d T nc ec size) tail) as Htail.
  { intros tail. rewrite Forall_app. split; [tauto|]. intros Ht. split; [done|].
    destruct out_path; repeat constructor; done. }
  assert (∀ caps, draw_func_call d T nc ec size
            ∈ (let pre := drawing_calls caps sampler figsize ng ok in
               if draw_rectangle
               then if bool_decide (chip_id sampler ≠ "DW_2000Q_6")
                    then (pre, inl (ValueError
                           ("support DW_2000Q_6, unsupported "
                              +:+ chip_id sampler +:+ ".")))
                    else (pre ++ [ax_add_patch rectangle]
                            ++ output_calls parent out_path ++ [plt_clf],
                          inr ())
               else (pre ++ output_calls parent out_path ++ [plt_clf],
                     inr ())).1 →
          d = draw_func caps ∧ T = graph_func caps (topology_shape sampler) ∧
          nc = c_node_color (on T (to_networkx_graph sampler) (colours ng ok)) ∧
          ec = c_edge_color (on T (to_networkx_graph sampler) (colours ng ok)) ∧
          size = 1) as Hcaps.
  { intros caps. cbv zeta.
    destruct draw_rectangle; [case_bool_decide|]; cbn [fst]; intros Hin.
    - apply (Hdraw caps []); [constructor|]. by rewrite app_nil_r.
    - apply (Hdraw caps _ (proj2 (Htail [ax_add_patch rectangle])
                             ltac:(repeat constructor; done))).
      done.
    - apply (Hdraw caps _ (proj2 (Htail []) ltac:(constructor))). done. }
  destruct (select_cases (topology_type sampler))
    as [[Ht ->]|[[Ht ->]|(H1 & H2 & e & ->)]]; cbn [snd].
  - intros (-> & -> & -> & -> & ->)%Hcaps. simpl.
    rewrite colours_on. simpl. rewrite !length_fmap. split_and!; auto.
  - intros (-> & -> & -> & -> & ->)%Hcaps. simpl.
    rewrite colours_on. simpl. rewrite !length_fmap. split_and!; auto.
  - by intros ?%elem_of_nil.
Qed.

End call_facts.


Lemma output_only_on_return_witness :
  let good := mkSampler "chimera" [16; 16; 4] "DW_2000Q_6" example_working in
  let other := mkSampler "chimera" [16; 16; 4] "DW_2000Q_5" example_working in
  let plot o sampler :=
    run_with o (plot_working_graph example_generator example_generator
                  example_parent sampler (Some "out/graph.xyz") (8, 8)%Q
                  "red" "blue" true) in
  ((plot all_return good).2 = inr () ∧
   filter (λ ev, is_output ev = true) (plot all_return good).1
   = [os_makedirs "out"; plt_savefig "out/graph.xyz"]) ∧
  ((plot all_return other).2
   = inl (ValueError "support DW_2000Q_6, unsupported DW_2000Q_5.") ∧
   Forall (λ ev, all_return ev = None) (plot all_return other).1 ∧
   Forall (λ ev, is_output ev = false) (plot all_return other).1) ∧
  ((plot savefig_raises good).2
   = inl (ValueError "Format 'xyz' is not supported") ∧
   filter (λ ev, is_output ev = true) (plot savefig_raises good).1
   = [os_makedirs "out"; plt_savefig "out/graph.xyz"] ∧
   filter (λ ev, is_output ev = true) (plot savefig_raises good).1
     `prefix_of` [os_makedirs "out"; plt_savefig "out/graph.xyz"]).
Proof.
  intros good other plot.
  assert ((plot all_return good).2 = inr ()) as Hg by (by vm_compute).
  assert ((plot all_return other).2 =
          inl (ValueError "support DW_2000Q_6, unsupported DW_2000Q_5."))
    as Ho by (by vm_compute).
  assert (Forall (λ ev, all_return ev = None) (plot all_return other).1) as Hall
    by (apply Forall_forall; done).
  destruct (output_only_on_return example_generator example_generator
              example_parent all_return good (Some "out/graph.xyz") (8, 8)%Q
              "red" "blue" true) as (_ & _ & Hret).
  destruct (output_only_on_return example_generator example_generator
              example_parent all_return other (Some "out/graph.xyz") (8, 8)%Q
              "red" "blue" true) as (_ & Hraise & _).
  destruct (output_only_on_return example_generator example_generator
              example_parent savefig_raises good (Some "out/graph.xyz")
              (8, 8)%Q "red" "blue" true) as (Hpre & _ & _).
  split_and!; [done|exact (proj1 (Hret Hg))|done|done|exact (Hraise _ Ho Hall)
              |by vm_compute|by vm_compute|exact Hpre].
Defined.

Lemma draw_call_is_aligned_witness :
  let sampler := mkSampler "chimera" [16; 16; 4] "DW_2000Q_6" example_working in
  let tr := (run (plot_working_graph example_generator example_generator
                    example_parent sampler None (8, 8)%Q "red" "blue" true)).1 in
  draw_func_call draw_chimera example_ideal
    ["blue"; "red"; "blue"] ["red"; "red"] 1 ∈ tr ∧
  length ["blue"; "red"; "blue"] = length (nodes example_ideal) ∧
  length ["red"; "red"] = length (edges example_ideal).
Proof.
  intros sampler tr.
  assert (draw_func_call draw_chimera example_ideal
            ["blue"; "red"; "blue"] ["red"; "red"] 1 ∈ tr) as Hin.
  { apply list_elem_of_lookup. exists 4%nat. by vm_compute. }
  destruct (draw_call_is_aligned example_generator example_generator
              example_parent sampler None (8, 8)%Q "red" "blue" true
              _ _ _ _ _ Hin) as (_ & Hn & He & _).
  split_and!; [done|exact Hn|exact He].
Defined.

(** ** The working graph as a pair of sets *)

Section working_graph_sets.

Implicit Types (T G : Graph) (ng ok : string).

Lemma elem_of_error_edge_has_edge T G e :
  graph_ok G → e ∈ on T G error_edge ↔ e ∈ edges T ∧ ¬ has_edge G e.
Proof.
  intros Hok. rewrite elem_of_error_edge, <- edges_contains_has_edge by done.
  by rewrite not_true_iff_false.
Qed.

(** X5. The more the working graph has, the fewer the defects: when
    every node and every edge (as an unordered pair) of one working
    graph is also in another, the defect sets against the second are
    contained in those against the first. *)
Theorem defects_antitone T G G' :
  graph_ok G → graph_ok G' →
  (∀ v, v ∈ nodes G → v ∈ nodes G') →
  (∀ e, has_edge G e → has_edge G' e) →
  on T G' error_node ⊆ on T G error_node ∧
  on T G' error_edge ⊆ on T G error_edge.
Proof.
  intros Hok Hok' Hn He. split.
  - intros v. rewrite !elem_of_error_node. naive_solver.
  - intros e. rewrite !elem_of_error_edge_has_edge by done. naive_solver.
Qed.

Lemma defects_antitone_witness :
  let G := graph_of [1; 3] [] in
  let G' := graph_of [1; 2; 3] [(2, 1)] in
  graph_ok G ∧ graph_ok G' ∧
  on example_ideal G' error_node ⊆ on example_ideal G error_node ∧
  on example_ideal G' error_edge ⊆ on example_ideal G error_edge.
Proof.
  intros G G'.
  assert (graph_ok G) as Hok by (apply (bool_decide_unpack _); by vm_compute).
  assert (graph_ok G') as Hok' by (apply (bool_decide_unpack _); by vm_compute).
  assert (∀ v, v ∈ nodes G → v ∈ nodes G') as Hn.
  { intros v. change (nodes G) with [1; 3]. change (nodes G') with [1; 2; 3].
    rewrite !elem_of_cons. tauto. }
  assert (∀ e, has_edge G e → has_edge G' e) as He.
  { intros e. unfold has_edge. change (edges G) with (@nil (Z * Z)).
    rewrite !elem_of_nil. tauto. }
  destruct (defects_antitone example_ideal G G' Hok Hok' Hn He) as [H1 H2].
  by split_and!.
Defined.

(** X4. The result depends on the working graph only through which
    ideal nodes and which ideal edges (as unordered pairs) it has: two
    working graphs that agree on every ideal node and every ideal edge
    give the same defect sets and the same colour lists, whatever their
    insertion order and orientation and whatever else they contain. *)
Theorem colours_depend_on_ideal_part T G G' ng ok :
  graph_ok G → graph_ok G' →
  (∀ v, v ∈ nodes T → v ∈ nodes G ↔ v ∈ nodes G') →
  (∀ e, e ∈ edges T → has_edge G e ↔ has_edge G' e) →
  on T G (colours ng ok) = on T G' (colours ng ok).
Proof.
  intros Hok Hok' Hn He.
  assert (on T G error_node = on T G' error_node) as Hen.
  { apply set_eq. intros v. rewrite !elem_of_error_node.
    specialize (Hn v). tauto. }
  assert (on T G error_edge = on T G' error_edge) as Hee.
  { apply set_eq. intros e. rewrite !elem_of_error_edge_has_edge by done.
    specialize (He e). tauto. }
  by rewrite !colours_on, Hen, Hee.
Qed.

Lemma colours_depend_on_ideal_part_witness :
  let G := graph_of [1; 2; 3] [(1, 2)] in
  let G' := graph_of [3] [(2, 1); (7, 8); (1, 3)] in
  graph_ok G ∧ graph_ok G' ∧
  nodes G = [1; 2; 3] ∧ nodes G' = [3; 2; 1; 7; 8] ∧
  edges G = [(1, 2)] ∧ edges G' = [(3, 1); (2, 1); (7, 8)] ∧
  on example_ideal G (colours "red" "blue")
  = on example_ideal G' (colours "red" "blue").
Proof.
  intros G G'.
  assert (graph_ok G) as Hok by (apply (bool_decide_unpack _); by vm_compute).
  assert (graph_ok G') as Hok' by (apply (bool_decide_unpack _); by vm_compute).
  assert (∀ v, v ∈ nodes example_ideal → v ∈ nodes G ↔ v ∈ nodes G') as Hn.
  { intros v. change (nodes example_ideal) with [1; 2; 3].
    change (nodes G) with [1; 2; 3]. change (nodes G') with [3; 2; 1; 7; 8].
    rewrite !elem_of_cons, !elem_of_nil. lia. }
  assert (∀ e, e ∈ edges example_ideal → has_edge G e ↔ has_edge G' e) as He.
  { intros [a b]. unfold has_edge.
    change (edges example_ideal) with [(1, 2); (2, 3)].
    change (edges G) with [(1, 2)].
    change (edges G') with [(3, 1); (2, 1); (7, 8)].
    rewrite !elem_of_cons, !elem_of_nil. simpl.
    intros [[= -> ->]|[[= -> ->]|[]]]; naive_solver. }
  split_and!; [done..|].
  exact (colours_depend_on_ideal_part example_ideal G G' "red" "blue"
           Hok Hok' Hn He).
Defined.

End working_graph_sets.
